(** * CodeChunkerMS: structural code chunking over a tree-sitter CST

    Shallow embedding of [src/_CodeChunkerMS/code_chunker.py] and the
    properties of its recursive, size-bounded tree walk.

    Conventions of the embedding:
    - node type tags, language names and file paths are [string];
    - the source text [code] is a Python [str], modelled as the list of its
      Unicode code points ([list N]), so that [len], slicing, [strip] and
      [splitlines] are the ones of Python;
    - tree-sitter, the file system and the standard output are collaborators
      of the chunker: they are the fields of an environment record and may
      raise;
    - [walk] gives the chunks of a walk that returns; [walk_limited] is the
      same walk under the interpreter's recursion limit, and is the one
      [_parse] runs. *)

From Stdlib Require Import ZArith NArith Lia Ascii String.
From stdpp Require Import base list strings gmap sorting.

Open Scope string_scope.
Open Scope list_scope.
Open Scope nat_scope.

(** ** Python strings *)

Module PyStr.

(** A Python [str]: its code points. *)
Abbreviation text := (list N).

(** Code points of an ASCII literal, to write sources in examples. *)
Fixpoint of_string (s : string) : text :=
  match s with
  | EmptyString => []
  | String a s' => Ascii.N_of_ascii a :: of_string s'
  end.

(** [s[i:j]] for [0 <= i] and [0 <= j]: out-of-range bounds are clamped and
    [j <= i] gives the empty string. *)
Definition slice {A} (s : list A) (i j : nat) : list A :=
  take (j - i) (drop i s).

(** [str.isspace] on one code point (CPython's [_PyUnicode_IsWhitespace]). *)
Definition is_space (c : N) : bool :=
  ((9 <=? c) && (c <=? 13) || (28 <=? c) && (c <=? 32)
   || (c =? 133) || (c =? 160) || (c =? 5760)
   || (8192 <=? c) && (c <=? 8202)
   || (c =? 8232) || (c =? 8233) || (c =? 8239) || (c =? 8287)
   || (c =? 12288))%N.

(** Line boundaries of [str.splitlines] (CPython's
    [_PyUnicode_IsLinebreak]). *)
Definition is_linebreak (c : N) : bool :=
  ((10 <=? c) && (c <=? 13) || (28 <=? c) && (c <=? 30)
   || (c =? 133) || (c =? 8232) || (c =? 8233))%N.

Fixpoint lstrip (s : text) : text :=
  match s with
  | [] => []
  | c :: s' => if is_space c then lstrip s' else s
  end.

Definition rstrip (s : text) : text := reverse (lstrip (reverse s)).

(** [s.strip()] *)
Definition strip (s : text) : text := rstrip (lstrip s).

(** [s.splitlines()]; [cur] is the current line, most recent code point
    first.  A carriage return followed by a line feed is one boundary, and
    no empty last line is produced. *)
Fixpoint splitlines_from (cur : text) (s : text) : list text :=
  match s with
  | [] => match cur with [] => [] | _ => [reverse cur] end
  | c :: s' =>
      if is_linebreak c then
        reverse cur ::
          match s' with
          | c' :: s'' =>
              if ((c =? 13) && (c' =? 10))%N then splitlines_from [] s''
              else splitlines_from [] s'
          | [] => splitlines_from [] s'
          end
      else splitlines_from (c :: cur) s'
  end.

Definition splitlines (s : text) : list text := splitlines_from [] s.

(** Truth value of a string or a list: non-empty. *)
Definition truthy {A} (l : list A) : bool :=
  match l with [] => false | _ => true end.

End PyStr.
Import PyStr.

(** ** The concrete syntax tree, as tree-sitter exposes it *)

Local Unset Elimination Schemes.

(** The attributes of a tree-sitter [Node] the chunker reads.  [prev_sibling]
    is not a field: it is the position of the node in its parent's
    [children], and the walk carries it along. *)
Inductive Node : Type := mkNode {
  type : string;
  start_byte : nat;
  end_byte : nat;
  start_point : nat * nat;
  end_point : nat * nat;
  children : list Node
}.

Local Set Elimination Schemes.

Section Node_induction.
Variable P : Node → Prop.
Hypothesis P_node : ∀ t sb eb sp ep cs,
  Forall P cs → P (mkNode t sb eb sp ep cs).

Fixpoint Node_ind (n : Node) : P n :=
  match n with
  | mkNode t sb eb sp ep cs =>
      P_node t sb eb sp ep cs
        ((fix all (l : list Node) : Forall P l :=
            match l with
            | [] => Forall_nil_2 P
            | c :: l' => Forall_cons_2 P c l' (Node_ind c) (all l')
            end) cs)
  end.
End Node_induction.

(** The dictionary appended to [chunks]. *)
Record Chunk : Type := mkChunk {
  chunk_type : string;
  chunk_text : text;
  start_line : nat;
  end_line : nat
}.

(** ** Configuration *)

Definition LANG_MAP : gmap string string :=
  list_to_map
    [ (".py", "python");
      (".js", "javascript"); (".jsx", "javascript");
      (".ts", "typescript"); (".tsx", "typescript");
      (".go", "go");
      (".rs", "rust");
      (".java", "java");
      (".cpp", "cpp"); (".cc", "cpp"); (".c", "c"); (".h", "c") ].

(** The set literal of the source, repeated tags included. *)
Definition CHUNK_NODES : gset string :=
  list_to_set
    [ "class_definition"; "function_definition"; "method_definition";
      "class_declaration"; "function_declaration"; "method_definition";
      "func_literal"; "function_declaration";
      "function_item"; "impl_item" ].

(** ** The recursive walker of [_parse] *)

Section Walk.
(** The variables [walk] closes over. *)
Variable code : text.
Variable lang_id : string.
Variable max_chars : Z.

(** [walk(node)], threading the list [chunks] it appends to.  [prev] is
    [node.prev_sibling]; [start_byte0] and [start_byte1] are the two values
    the variable [start_byte] takes. *)
Fixpoint walk (prev : option Node) (node : Node) (chunks : list Chunk)
  {struct node} : list Chunk :=
  let walk_each :=
    fix walk_each (prev : option Node) (cs : list Node)
        (chunks : list Chunk) {struct cs} : list Chunk :=
      match cs with
      | [] => chunks
      | child :: cs' => walk_each (Some child) cs' (walk prev child chunks)
      end in
  if bool_decide (type node ∈ CHUNK_NODES) then
    let start_byte0 := start_byte node in
    let end_byte0 := end_byte node in
    let start_byte1 :=
      match prev with
      | Some p =>
          if bool_decide (type p = "comment") then start_byte p
          else start_byte0
      | None => start_byte0
      end in
    let chunk_text0 := slice code start_byte1 end_byte0 in
    if (Z.of_nat (length chunk_text0) >? max_chars)%Z then
      walk_each None (children node) chunks
    else
      chunks ++ [ {| chunk_type := type node;
                     chunk_text := chunk_text0;
                     start_line := fst (start_point node);
                     end_line := fst (end_point node) |} ]
  else
    walk_each None (children node) chunks.

(** [for child in children: walk(child)]; the first child has no previous
    sibling, every other one has the child before it. *)
Fixpoint walk_children (prev : option Node) (cs : list Node)
    (chunks : list Chunk) : list Chunk :=
  match cs with
  | [] => chunks
  | child :: cs' => walk_children (Some child) cs' (walk prev child chunks)
  end.

End Walk.

(** The start of the emitted text: the previous sibling's [start_byte] when
    that sibling is a comment, the node's own otherwise. *)
Definition effective_start (prev : option Node) (node : Node) : nat :=
  match prev with
  | Some p =>
      if bool_decide (type p = "comment") then start_byte p
      else start_byte node
  | None => start_byte node
  end.

(** The dictionary [walk] appends for [node]. *)
Definition chunk_of (code : text) (prev : option Node) (node : Node) : Chunk :=
  {| chunk_type := type node;
     chunk_text := slice code (effective_start prev node) (end_byte node);
     start_line := fst (start_point node);
     end_line := fst (end_point node) |}.

(** Whether the text [walk] would emit for [node] exceeds the budget:
    the test [len(chunk_text) > max_chars]. *)
Definition too_big (code : text) (max_chars : Z) (prev : option Node)
    (node : Node) : bool :=
  (Z.of_nat (length (chunk_text (chunk_of code prev node))) >? max_chars)%Z.

(** The test [node.type in CHUNK_NODES]; the language of the file is in scope
    at the test and is not consulted. *)
Definition is_chunk_unit (node_type : string) (language : string) : bool :=
  bool_decide (node_type ∈ CHUNK_NODES).

(** ** Exceptions *)

Inductive result (A : Type) : Type :=
| Ok (a : A)
| Raise (exc : string).
Arguments Ok {A} a.
Arguments Raise {A} exc.

Global Instance result_ret : MRet result := λ A a, Ok a.
Global Instance result_bind : MBind result := λ A B f m,
  match m with
  | Ok a => f a
  | Raise exc => Raise exc
  end.

(** [try: body except Exception as e: handler(e)] *)
Definition try_except {A} (body : result A) (handler : string → result A)
  : result A :=
  match body with
  | Ok a => Ok a
  | Raise exc => handler exc
  end.

(** ** The walk under the recursion limit *)

Section Walk_limited.
Variable code : text.
Variable max_chars : Z.

(** [walk(node)] when the interpreter allows [frames] more nested calls:
    every call of [walk] takes one, and a call made when none is left raises
    [RecursionError].  The loop over the children stops at the first child
    whose walk raises.  Calls of built-in functions inside the body are not
    counted. *)
Fixpoint walk_limited (frames : nat) (prev : option Node) (node : Node)
    (chunks : list Chunk) {struct node} : result (list Chunk) :=
  match frames with
  | 0 => Raise "RecursionError"
  | S frames' =>
      let walk_each :=
        fix walk_each (prev : option Node) (cs : list Node)
            (chunks : list Chunk) {struct cs} : result (list Chunk) :=
          match cs with
          | [] => Ok chunks
          | child :: cs' =>
              match walk_limited frames' prev child chunks with
              | Ok chunks' => walk_each (Some child) cs' chunks'
              | Raise exc => Raise exc
              end
          end in
      if bool_decide (type node ∈ CHUNK_NODES) then
        let start_byte0 := start_byte node in
        let end_byte0 := end_byte node in
        let start_byte1 :=
          match prev with
          | Some p =>
              if bool_decide (type p = "comment") then start_byte p
              else start_byte0
          | None => start_byte0
          end in
        let chunk_text0 := slice code start_byte1 end_byte0 in
        if (Z.of_nat (length chunk_text0) >? max_chars)%Z then
          walk_each None (children node) chunks
        else
          Ok (chunks ++ [ {| chunk_type := type node;
                             chunk_text := chunk_text0;
                             start_line := fst (start_point node);
                             end_line := fst (end_point node) |} ])
      else
        walk_each None (children node) chunks
  end.

Section Walk_limited_children.
Variable frames : nat.

(** The loop over the children, each child walked with [frames] calls
    left. *)
Fixpoint walk_limited_children (prev : option Node) (cs : list Node)
    (chunks : list Chunk) : result (list Chunk) :=
  match cs with
  | [] => Ok chunks
  | child :: cs' =>
      match walk_limited frames prev child chunks with
      | Ok chunks' => walk_limited_children (Some child) cs' chunks'
      | Raise exc => Raise exc
      end
  end.
End Walk_limited_children.

(** The number of nested calls [walk(node)] makes: one for the node, and
    below it the most that a child it loops over needs. *)
Fixpoint walk_frames (prev : option Node) (node : Node) {struct node}
  : nat :=
  let frames_each :=
    fix frames_each (prev : option Node) (cs : list Node) {struct cs}
      : nat :=
      match cs with
      | [] => 0
      | child :: cs' =>
          walk_frames prev child `max` frames_each (Some child) cs'
      end in
  S (if bool_decide (type node ∈ CHUNK_NODES) then
       if too_big code max_chars prev node
       then frames_each None (children node)
       else 0
     else frames_each None (children node)).

Fixpoint walk_frames_children (prev : option Node) (cs : list Node) : nat :=
  match cs with
  | [] => 0
  | child :: cs' =>
      walk_frames prev child `max` walk_frames_children (Some child) cs'
  end.

End Walk_limited.

(** The number of levels of a tree. *)
Fixpoint height (node : Node) : nat :=
  S ((fix height_each (cs : list Node) {struct cs} : nat :=
        match cs with
        | [] => 0
        | child :: cs' => height child `max` height_each cs'
        end) (children node)).

Fixpoint height_children (cs : list Node) : nat :=
  match cs with
  | [] => 0
  | child :: cs' => height child `max` height_children cs'
  end.

(** ** pathlib, POSIX flavour *)

Module Pathlib.
Import Ascii.

Fixpoint to_list (s : string) : list ascii :=
  match s with
  | EmptyString => []
  | String a s' => a :: to_list s'
  end.

Fixpoint of_list (l : list ascii) : string :=
  match l with
  | [] => EmptyString
  | a :: l' => String a (of_list l')
  end.

(** Components between slashes; [cur] is the current one, reversed. *)
Fixpoint components (cur : list ascii) (l : list ascii)
  : list (list ascii) :=
  match l with
  | [] => [reverse cur]
  | a :: l' =>
      if bool_decide (a = "/"%char) then reverse cur :: components [] l'
      else components (a :: cur) l'
  end.

(** [PurePosixPath(p).name]: the last component that is neither empty nor a
    single dot, or the empty string. *)
Definition name (file_path : string) : list ascii :=
  let parts :=
    filter (λ c, c ≠ [] ∧ c ≠ ["."%char])
      (components [] (to_list file_path)) in
  default [] (last parts).

(** [name.rfind('.')] as the index of the last dot, if any. *)
Fixpoint rfind_dot (l : list ascii) : option nat :=
  match l with
  | [] => None
  | a :: l' =>
      match rfind_dot l' with
      | Some i => Some (S i)
      | None => if bool_decide (a = "."%char) then Some 0 else None
      end
  end.

(** [PurePosixPath(p).suffix] *)
Definition suffix (file_path : string) : string :=
  let n := name file_path in
  match rfind_dot n with
  | Some i =>
      if bool_decide (0 < i ∧ i < length n - 1) then of_list (drop i n)
      else ""
  | None => ""
  end.

(** [str.lower] on the letters A to Z.  Other letters are left as they are;
    none of them is lower-cased by Python to a letter of a key of
    [LANG_MAP]. *)
Definition lower_ascii (a : ascii) : ascii :=
  let n := nat_of_ascii a in
  if bool_decide (65 ≤ n ∧ n ≤ 90) then ascii_of_nat (n + 32) else a.

Definition lower (s : string) : string :=
  of_list (map lower_ascii (to_list s)).

End Pathlib.

(** ** The service *)

(** What [CodeChunkerMS] gets from its surroundings: whether tree-sitter
    could be imported, the file system, the parser, the standard output and
    the interpreter's stack.  [parse language code] stands for building a
    [Parser], [set_language] and [parse(bytes(code, "utf8"))], and gives the
    root node of the tree.  [print msg] writes a line to the standard output,
    which can raise.  [frames] is the number of nested calls the recursion
    limit leaves to [walk] when [_parse] calls it on the root. *)
Record Env (Language : Type) : Type := mkEnv {
  _available : bool;
  read_text : string → result text;
  get_language : string → result Language;
  parse : Language → text → result Node;
  print : string → result unit;
  frames : nat
}.
Arguments _available {Language} _.
Arguments read_text {Language} _ _.
Arguments get_language {Language} _ _.
Arguments parse {Language} _ _ _.
Arguments print {Language} _ _.
Arguments frames {Language} _.

(** The whole-file chunk of the fallback. *)
Definition file_chunk (code : text) : Chunk :=
  {| chunk_type := "file";
     chunk_text := code;
     start_line := 0;
     end_line := length (splitlines code) |}.

(** [_parse] from [walk(tree.root_node)] on, when the walk returns: the
    walk, starting with the empty list [chunks], then the fallback. *)
Definition parse_root (code : text) (max_chars : Z) (root_node : Node)
  : list Chunk :=
  let chunks := walk code max_chars None root_node [] in
  if negb (truthy chunks) && truthy (strip code)
  then chunks ++ [file_chunk code]
  else chunks.

Section Service.
Context {Language : Type} (self : Env Language).

(** The tree cursor [_parse] creates is not used and is left out. *)
Definition _parse (code : text) (lang_id : string) (max_chars : Z)
  : result (list Chunk) :=
  language ← get_language self lang_id;
  root_node ← parse self language code;
  chunks ← walk_limited code max_chars (frames self) None root_node [];
  mret (if negb (truthy chunks) && truthy (strip code)
        then chunks ++ [file_chunk code]
        else chunks).

(** The handler prints its message before it returns the empty list; an
    exception of [print] is raised inside the handler and leaves
    [chunk_file]. *)
Definition chunk_file (file_path : string) (max_chars : Z)
  : result (list Chunk) :=
  if negb (_available self) then mret []
  else
    let ext := Pathlib.lower (Pathlib.suffix file_path) in
    match LANG_MAP !! ext with
    | None => mret []
    | Some lang_id =>
        try_except
          (code ← read_text self file_path;
           _parse code lang_id max_chars)
          (λ e,
             _ ← print self ("Error parsing " +:+ file_path +:+ ": " +:+ e);
             mret [])
    end.

End Service.

(** The default of [max_chars]. *)
Definition default_max_chars : Z := 1500.


(** ** The calls of the walk *)

(** One call [walk(node)]: where the node sits in the tree (the child indices
    from the root down to it), its previous sibling and the node. *)
Record Call : Type := mkCall {
  call_pos : list nat;
  call_prev : option Node;
  call_node : Node
}.

(** The calls [walk(node)] gives rise to, in the order they are made: the
    call itself, then those of the children it loops over. *)
Fixpoint calls (code : text) (max_chars : Z) (pos : list nat)
    (prev : option Node) (node : Node) {struct node} : list Call :=
  let calls_each :=
    fix calls_each (i : nat) (prev : option Node) (cs : list Node)
        {struct cs} : list Call :=
      match cs with
      | [] => []
      | child :: cs' =>
          calls code max_chars (pos ++ [i]) prev child ++
          calls_each (S i) (Some child) cs'
      end in
  mkCall pos prev node ::
    if bool_decide (type node ∈ CHUNK_NODES) then
      if too_big code max_chars prev node
      then calls_each 0 None (children node)
      else []
    else calls_each 0 None (children node).

Section Calls_children.
Variables (code : text) (max_chars : Z) (pos : list nat).

(** The calls of the loop over the children of the node at [pos], from
    the child of index [i] on. *)
Fixpoint calls_children (i : nat) (prev : option Node) (cs : list Node)
  : list Call :=
  match cs with
  | [] => []
  | child :: cs' =>
      calls code max_chars (pos ++ [i]) prev child ++
      calls_children (S i) (Some child) cs'
  end.
End Calls_children.

(** The call appends a chunk: the node is a chunk unit within the budget. *)
Definition kept (code : text) (max_chars : Z) (c : Call) : bool :=
  bool_decide (type (call_node c) ∈ CHUNK_NODES)
  && negb (too_big code max_chars (call_prev c) (call_node c)).

(** The chunk a kept call appends. *)
Definition chunk_of_call (code : text) (c : Call) : Chunk :=
  chunk_of code (call_prev c) (call_node c).

(** The node at a position below [root]. *)
Fixpoint node_at (root : Node) (pos : list nat) : option Node :=
  match pos with
  | [] => Some root
  | i :: pos' =>
      match children root !! i with
      | Some child => node_at child pos'
      | None => None
      end
  end.

(** Document order of positions: a node comes before its descendants and
    before everything under its later siblings. *)
Fixpoint pos_lt (p q : list nat) : Prop :=
  match p, q with
  | _, [] => False
  | [], _ :: _ => True
  | i :: p', j :: q' => i < j ∨ (i = j ∧ pos_lt p' q')
  end.

Definition call_before (c1 c2 : Call) : Prop :=
  pos_lt (call_pos c1) (call_pos c2).

(** ** Trees in document order *)

(** [(row, column)] points, ordered as tree-sitter orders them. *)
Definition point_leb (a b : nat * nat) : bool :=
  (fst a <? fst b) || ((fst a =? fst b) && (snd a <=? snd b)).

(** Every node ends no earlier than it starts, children lie inside their
    parent, and each child starts no earlier than its previous sibling
    ends. *)
Fixpoint doc_ordered (node : Node) : bool :=
  point_leb (start_point node) (end_point node) &&
  (fix ordered_from (lo : nat * nat) (cs : list Node) {struct cs} : bool :=
     match cs with
     | [] => true
     | child :: cs' =>
         point_leb lo (start_point child)
         && point_leb (end_point child) (end_point node)
         && doc_ordered child
         && ordered_from (end_point child) cs'
     end) (start_point node) (children node).

Section Ordered_from.
Variable hi : nat * nat.

(** The children [cs] of a node ending at [hi], the previous sibling (or
    the node itself, for the first child) ending at [lo]. *)
Fixpoint ordered_from (lo : nat * nat) (cs : list Node) : bool :=
  match cs with
  | [] => true
  | child :: cs' =>
      point_leb lo (start_point child)
      && point_leb (end_point child) hi
      && doc_ordered child
      && ordered_from (end_point child) cs'
  end.
End Ordered_from.

(** Chunks by the row they start on. *)
Definition line_le (a b : Chunk) : Prop := start_line a ≤ start_line b.

(** ** The specification's variants, for comparison *)

(** The per-language allow-lists as the specification enumerates them. *)
Definition allow_list_spec (language : string) : option (gset string) :=
  if bool_decide (language = "python") then
    Some {[ "class_definition"; "function_definition" ]}
  else if bool_decide (language = "rust") then
    Some {[ "function_item"; "impl_item" ]}
  else None.

(** The size of the node's own text, without the comment in front. *)
Definition own_size (code : text) (node : Node) : Z :=
  Z.of_nat (length (slice code (start_byte node) (end_byte node))).

(** The number of newline-delimited lines: the lines ended by a line feed,
    and one more for a non-empty last line without one.  [open_line] tells
    whether the current line has a character yet. *)
Fixpoint newline_lines (open_line : bool) (s : text) : nat :=
  match s with
  | [] => if open_line then 1 else 0
  | c :: s' =>
      if (c =? 10)%N then S (newline_lines false s')
      else newline_lines true s'
  end.

(** One chunk ends no later than the row the other starts on. *)
Definition ends_before (a b : Chunk) : Prop := end_line a ≤ start_line b.

(** ** Measures of a tree *)

(** The number of chunk units in a subtree. *)
Fixpoint count_units (node : Node) : nat :=
  (if bool_decide (type node ∈ CHUNK_NODES) then 1 else 0) +
  (fix count_each (cs : list Node) {struct cs} : nat :=
     match cs with
     | [] => 0
     | child :: cs' => count_units child + count_each cs'
     end) (children node).

Fixpoint count_units_children (cs : list Node) : nat :=
  match cs with
  | [] => 0
  | child :: cs' => count_units child + count_units_children cs'
  end.

(** The chunks of the outermost chunk units of a subtree, whatever their
    size: a unit gives its chunk and hides what is below it. *)
Fixpoint outermost (code : text) (prev : option Node) (node : Node)
    {struct node} : list Chunk :=
  if bool_decide (type node ∈ CHUNK_NODES) then [chunk_of code prev node]
  else
    (fix outermost_each (prev : option Node) (cs : list Node) {struct cs}
       : list Chunk :=
       match cs with
       | [] => []
       | child :: cs' =>
           outermost code prev child ++ outermost_each (Some child) cs'
       end) None (children node).

Section Outermost_children.
Variable code : text.

Fixpoint outermost_children (prev : option Node) (cs : list Node)
  : list Chunk :=
  match cs with
  | [] => []
  | child :: cs' =>
      outermost code prev child ++ outermost_children (Some child) cs'
  end.
End Outermost_children.

(** ** UTF-8 offsets *)

(** The number of bytes of a code point in [bytes(code, "utf8")]. *)
Definition utf8_len (c : N) : nat :=
  if (c <? 128)%N then 1
  else if (c <? 2048)%N then 2
  else if (c <? 65536)%N then 3
  else 4.

(** The byte offset, in [bytes(code, "utf8")], of the character of index
    [k]: what tree-sitter reports as [start_byte] for a node starting
    there. *)
Definition byte_offset (code : text) (k : nat) : nat :=
  sum_list (utf8_len <$> take k code).

(** ** Sample inputs *)

Module Samples.

Definition leaf (t : string) (sb eb row col : nat) : Node :=
  mkNode t sb eb (row, col) (row, col + (eb - sb)) [].

(** A commented one-line function. *)
Definition helper_src : text :=
  of_string "# helper fn
def helper(x): return x".

Definition helper_comment : Node := leaf "comment" 0 11 0 0.

Definition helper_def : Node :=
  mkNode "function_definition" 12 35 (1, 0) (1, 23)
    [ leaf "def" 12 15 1 0; leaf "identifier" 16 22 1 4;
      leaf "parameters" 22 25 1 10; leaf ":" 25 26 1 13;
      leaf "block" 27 35 1 15 ].

Definition helper_module : Node :=
  mkNode "module" 0 35 (0, 0) (1, 23) [ helper_comment; helper_def ].

(** The same function after a Rust-style line comment. *)
Definition line_comment : Node := leaf "line_comment" 0 11 0 0.

(** A chunk unit without children. *)
Definition bare_src : text := of_string "fn f() { 1 }".
Definition bare_item : Node := leaf "function_item" 0 12 0 0.

(** A flat script. *)
Definition flat_src : text :=
  of_string "x = 1
y = 2
".

Definition flat_module : Node :=
  mkNode "module" 0 12 (0, 0) (2, 0)
    [ leaf "expression_statement" 0 5 0 0;
      leaf "expression_statement" 6 11 1 0 ].

(** A class holding one method. *)
Definition class_src : text :=
  of_string "class P:
  def m(self): pass
".

Definition class_method : Node :=
  mkNode "function_definition" 13 30 (1, 4) (1, 21)
    [ leaf "def" 13 16 1 4; leaf "identifier" 17 18 1 8;
      leaf "block" 26 30 1 17 ].

Definition class_def : Node :=
  mkNode "class_definition" 0 30 (0, 0) (1, 21)
    [ leaf "class" 0 5 0 0; leaf "identifier" 6 7 0 6;
      mkNode "block" 13 30 (1, 4) (1, 21) [ class_method ] ].

Definition class_module : Node :=
  mkNode "module" 0 31 (0, 0) (2, 0) [ class_def ].

(** A function, then a class with one method. *)
Definition units_src : text :=
  of_string "
def helper(x):
  return x*2

class P:
  def process(self,d):
      return helper(d)
".

Definition units_helper : Node :=
  mkNode "function_definition" 1 30 (1, 0) (2, 14)
    [ leaf "def" 1 4 1 0; leaf "identifier" 5 11 1 4;
      leaf "parameters" 11 14 1 10; leaf ":" 14 15 1 13;
      mkNode "block" 20 30 (2, 4) (2, 14) [] ].

Definition units_method : Node :=
  mkNode "function_definition" 45 90 (5, 4) (6, 24)
    [ leaf "def" 45 48 5 4; leaf "identifier" 49 56 5 8;
      leaf "parameters" 56 64 5 15; leaf ":" 64 65 5 23;
      mkNode "block" 74 90 (6, 8) (6, 24) [] ].

Definition units_class : Node :=
  mkNode "class_definition" 32 90 (4, 0) (6, 24)
    [ leaf "class" 32 37 4 0; leaf "identifier" 38 39 4 6;
      leaf ":" 39 40 4 7;
      mkNode "block" 45 90 (5, 4) (6, 24) [ units_method ] ].

Definition units_module : Node :=
  mkNode "module" 0 91 (0, 0) (7, 0) [ units_helper; units_class ].


(** An environment that parses every file as the flat script. *)
Definition flat_env : Env unit :=
  {| _available := true;
     read_text := λ _, Ok flat_src;
     get_language := λ _, Ok ();
     parse := λ _ _, Ok flat_module;
     print := λ _, Ok ();
     frames := 900 |}.

End Samples.

(** ** Further sample inputs *)

Module Fixtures.

(** The text whose lines are [ls], each ended by a line feed. *)
Definition unlines (ls : list string) : text :=
  concat ((λ l, of_string l ++ [10%N]) <$> ls).

(** A function, then a class with one method, with the indentation of the
    source; [Samples.units_module] is its tree. *)
Definition nested_src : text :=
  unlines [ ""; "def helper(x):"; "    return x*2"; ""; "class P:";
            "    def process(self,d):"; "        return helper(d)" ].

(** A source starting with a two-byte character, and the function on its
    second line with the byte offsets tree-sitter gives: the characters 6 to
    19 are the bytes 7 to 20. *)
Definition accent_src : text :=
  233%N :: unlines [ " = 1"; "def f(): pass" ].

Definition accent_def : Node :=
  mkNode "function_definition" 7 20 (1, 0) (1, 13) [].

(** A file that cannot be read, and a standard output that rejects the
    message of the handler, as a strict UTF-8 output does for a path that
    holds a lone surrogate. *)
Definition unprintable_env : Env unit :=
  {| _available := true;
     read_text := λ _, Raise "FileNotFoundError";
     get_language := λ _, Ok ();
     parse := λ _ _, Ok Samples.flat_module;
     print := λ _, Raise "UnicodeEncodeError";
     frames := 900 |}.

(** [n] blocks nested in one another around an empty block. *)
Fixpoint nest (n : nat) : Node :=
  match n with
  | 0 => mkNode "block" 0 5 (0, 0) (0, 5) []
  | S n' => mkNode "block" 0 5 (0, 0) (0, 5) [nest n']
  end.

(** An environment that reads the flat script, parses every file as six
    blocks nested in one another, and leaves room for three calls of
    [walk]. *)
Definition shallow_stack_env : Env unit :=
  {| _available := true;
     read_text := λ _, Ok Samples.flat_src;
     get_language := λ _, Ok ();
     parse := λ _ _, Ok (nest 5);
     print := λ _, Ok ();
     frames := 3 |}.

End Fixtures.
(** * Properties *)

(** ** Equations of the walk *)

Lemma walk_eq code max_chars prev node chunks :
  walk code max_chars prev node chunks =
    if bool_decide (type node ∈ CHUNK_NODES) then
      if too_big code max_chars prev node
      then walk_children code max_chars None (children node) chunks
      else chunks ++ [chunk_of code prev node]
    else walk_children code max_chars None (children node) chunks.
Proof. destruct node; destruct prev; reflexivity. Qed.

Lemma walk_children_cons code max_chars prev child cs chunks :
  walk_children code max_chars prev (child :: cs) chunks =
    walk_children code max_chars (Some child) cs
      (walk code max_chars prev child chunks).
Proof. reflexivity. Qed.

(** The walk only appends: what was in [chunks] stays in front. *)
Lemma walk_app code max_chars node :
  ∀ prev chunks,
    walk code max_chars prev node chunks =
      chunks ++ walk code max_chars prev node [].
Proof.
  induction node as [t sb eb sp ep cs IH] using Node_ind.
  assert (Hcs : ∀ prev chunks,
            walk_children code max_chars prev cs chunks =
              chunks ++ walk_children code max_chars prev cs []).
  { induction IH as [|c cs Hc _ IHcs]; intros prev chunks.
    - by rewrite app_nil_r.
    - rewrite !walk_children_cons.
      rewrite IHcs, (IHcs _ (walk _ _ _ _ [])), Hc.
      by rewrite app_assoc. }
  intros prev chunks. rewrite !walk_eq. cbn [children].
  repeat case_match; auto.
Qed.

Lemma walk_children_app code max_chars cs :
  ∀ prev chunks,
    walk_children code max_chars prev cs chunks =
      chunks ++ walk_children code max_chars prev cs [].
Proof.
  induction cs as [|c cs IH]; intros prev chunks.
  - by rewrite app_nil_r.
  - rewrite !walk_children_cons.
    rewrite IH, (IH _ (walk _ _ _ _ [])), walk_app.
    by rewrite app_assoc.
Qed.

(** The chunks of a list of siblings, one sibling after the other. *)
Lemma walk_children_cons_nil code max_chars prev child cs :
  walk_children code max_chars prev (child :: cs) [] =
    walk code max_chars prev child [] ++
    walk_children code max_chars (Some child) cs [].
Proof. by rewrite walk_children_cons, walk_children_app. Qed.

Lemma walk_unit code max_chars prev node chunks :
  type node ∈ CHUNK_NODES →
  walk code max_chars prev node chunks =
    if too_big code max_chars prev node
    then walk_children code max_chars None (children node) chunks
    else chunks ++ [chunk_of code prev node].
Proof. intros Hin. rewrite walk_eq. by rewrite bool_decide_eq_true_2. Qed.

Lemma walk_other code max_chars prev node chunks :
  type node ∉ CHUNK_NODES →
  walk code max_chars prev node chunks =
    walk_children code max_chars None (children node) chunks.
Proof. intros Hin. rewrite walk_eq. by rewrite bool_decide_eq_false_2. Qed.

Lemma too_big_false code max_chars prev node :
  too_big code max_chars prev node = false ↔
  (Z.of_nat (length (slice code (effective_start prev node) (end_byte node)))
   ≤ max_chars)%Z.
Proof. unfold too_big, chunk_of; cbn [chunk_text]. rewrite Z.gtb_ltb, Z.ltb_ge. done. Qed.

Lemma too_big_true code max_chars prev node :
  too_big code max_chars prev node = true ↔
  (max_chars <
   Z.of_nat (length (slice code (effective_start prev node) (end_byte node))))%Z.
Proof. unfold too_big, chunk_of; cbn [chunk_text]. rewrite Z.gtb_ltb, Z.ltb_lt. done. Qed.

(** ** The size budget *)

(** Every chunk the walk appends is within the budget. *)
Lemma walk_within_budget code max_chars node :
  ∀ prev c,
    c ∈ walk code max_chars prev node [] →
    (Z.of_nat (length (chunk_text c)) ≤ max_chars)%Z.
Proof.
  induction node as [t sb eb sp ep cs IH] using Node_ind.
  assert (Hcs : ∀ prev c,
            c ∈ walk_children code max_chars prev cs [] →
            (Z.of_nat (length (chunk_text c)) ≤ max_chars)%Z).
  { induction IH as [|child cs Hchild _ IHcs]; intros prev c.
    - cbn. by intros ?%elem_of_nil.
    - rewrite walk_children_cons_nil, elem_of_app. intros [?|?]; eauto. }
  intros prev c. rewrite walk_eq. cbn [children type].
  destruct (bool_decide _); [|by eauto].
  destruct (too_big _ _ _ _) eqn:Hbig; [by eauto|].
  cbn. rewrite list_elem_of_singleton. intros ->.
  by apply too_big_false in Hbig.
Qed.

Lemma walk_fits code max_chars prev node chunks :
  type node ∈ CHUNK_NODES →
  too_big code max_chars prev node = false →
  walk code max_chars prev node chunks = chunks ++ [chunk_of code prev node].
Proof. intros Hin Hfit. rewrite walk_unit by done. by rewrite Hfit. Qed.

(** C5. The size test is inclusive.  A chunk unit whose text, comment in
    front included, has at most [max_chars] characters (so also one of exactly
    [max_chars]) makes the walk append exactly one chunk and nothing for its
    children; the chunk carries the node's type tag, that text, and the rows
    of the node's start and end points. *)
Theorem walk_keeps_within_budget code max_chars prev node chunks :
  type node ∈ CHUNK_NODES →
  (Z.of_nat (length (slice code (effective_start prev node) (end_byte node)))
   ≤ max_chars)%Z →
  walk code max_chars prev node chunks =
    chunks ++ [ {| chunk_type := type node;
                   chunk_text :=
                     slice code (effective_start prev node) (end_byte node);
                   start_line := fst (start_point node);
                   end_line := fst (end_point node) |} ].
Proof.
  intros Hin Hle. apply too_big_false in Hle. by apply walk_fits.
Qed.

(** The commented helper function is exactly 35 characters long with its
    comment: with a budget of 35 it is kept. *)
Lemma walk_keeps_within_budget_witness :
  Z.of_nat (length (slice Samples.helper_src
                      (effective_start (Some Samples.helper_comment)
                         Samples.helper_def)
                      (end_byte Samples.helper_def))) = 35%Z ∧
  walk Samples.helper_src 35 (Some Samples.helper_comment)
    Samples.helper_def [] =
    [ {| chunk_type := "function_definition";
         chunk_text := Samples.helper_src;
         start_line := 1;
         end_line := 1 |} ].
Proof.
  split; [reflexivity|].
  exact (walk_keeps_within_budget Samples.helper_src 35
           (Some Samples.helper_comment) Samples.helper_def []
           ltac:(vm_compute; done) ltac:(vm_compute; discriminate)).
Defined.

(** C1, as stated, fails: a chunk unit without children that exceeds the
    budget is not emitted.  The walk loops over its empty list of children
    and appends nothing. *)
Lemma oversized_leaf_not_emitted :
  type Samples.bare_item ∈ CHUNK_NODES ∧
  children Samples.bare_item = [] ∧
  too_big Samples.bare_src 5 None Samples.bare_item = true ∧
  walk Samples.bare_src 5 None Samples.bare_item [] = [] ∧
  walk Samples.bare_src 5 None Samples.bare_item [] ≠
    [chunk_of Samples.bare_src None Samples.bare_item].
Proof. repeat split; done. Qed.

(** C1, amended.  A chunk unit whose text exceeds the budget and that has no
    children adds no chunk, and every chunk the walk appends has at most
    [max_chars] characters: the budget is a hard bound on the chunks of the
    walk. *)
Theorem walk_oversized_leaf code max_chars prev node chunks :
  (type node ∈ CHUNK_NODES →
   children node = [] →
   too_big code max_chars prev node = true →
   walk code max_chars prev node chunks = chunks) ∧
  (∀ c, c ∈ walk code max_chars prev node [] →
        (Z.of_nat (length (chunk_text c)) ≤ max_chars)%Z).
Proof.
  split.
  - intros Hin Hcs Hbig. rewrite walk_unit by done. by rewrite Hbig, Hcs.
  - intros c. apply walk_within_budget.
Qed.

(** The function and the class of the second sample both exceed a budget of
    5 and nothing below them is a chunk unit within it: the walk finds no
    chunk and the result is the whole file. *)
Example units_budget_5 :
  walk Samples.units_src 5 None Samples.units_module [] = [] ∧
  parse_root Samples.units_src 5 Samples.units_module =
    [file_chunk Samples.units_src].
Proof. split; reflexivity. Qed.

Lemma walk_oversized_leaf_witness :
  walk Samples.bare_src 5 None Samples.bare_item [] = [] ∧
  Forall (λ c, (Z.of_nat (length (chunk_text c)) ≤ 20)%Z)
    (walk Samples.class_src 20 None Samples.class_module []).
Proof.
  split.
  - apply (walk_oversized_leaf Samples.bare_src 5 None Samples.bare_item []);
      [vm_compute; done | reflexivity | reflexivity].
  - apply Forall_forall. intros c Hc.
    by apply (walk_oversized_leaf Samples.class_src 20 None
                Samples.class_module []).
Defined.

(** ** The size test and the comment in front *)

(** C2, as stated, fails: the size test is not made on the node's own text.
    The helper function alone has 23 characters and would pass a budget of
    25; with its comment it has 35, the test fails, and the walk descends
    into the children, none of which is a chunk unit.  Without the comment in
    front the same node is kept. *)
Lemma size_test_counts_comment :
  type Samples.helper_def ∈ CHUNK_NODES ∧
  (own_size Samples.helper_src Samples.helper_def ≤ 25)%Z ∧
  walk Samples.helper_src 25 (Some Samples.helper_comment)
    Samples.helper_def [] = [] ∧
  walk Samples.helper_src 25 None Samples.helper_module [] = [] ∧
  walk Samples.helper_src 25 None Samples.helper_def [] =
    [chunk_of Samples.helper_src None Samples.helper_def].
Proof. repeat split; done. Qed.

(** C2, amended.  The start is moved to the comment before the size test: a
    chunk unit is kept exactly when its text from the effective start, the
    comment in front included, has at most [max_chars] characters, and that
    same text is the text of the chunk; otherwise the walk goes on with the
    children. *)
Theorem size_test_on_extended_text code max_chars prev node :
  type node ∈ CHUNK_NODES →
  (walk code max_chars prev node [] = [chunk_of code prev node] ↔
   (Z.of_nat
      (length (slice code (effective_start prev node) (end_byte node)))
    ≤ max_chars)%Z) ∧
  ((max_chars <
    Z.of_nat
      (length (slice code (effective_start prev node) (end_byte node))))%Z →
   ∀ chunks,
     walk code max_chars prev node chunks =
       walk_children code max_chars None (children node) chunks).
Proof.
  intros Hin. split; [split|].
  - intros Hw.
    assert (Hc : chunk_of code prev node ∈ walk code max_chars prev node [])
      by (rewrite Hw; apply list_elem_of_singleton; done).
    by apply walk_within_budget in Hc.
  - intros Hle. apply too_big_false in Hle.
    by rewrite (walk_fits _ _ _ _ [] Hin Hle).
  - intros Hlt chunks. rewrite walk_unit by done.
    apply too_big_true in Hlt. by rewrite Hlt.
Qed.

Lemma size_test_on_extended_text_witness :
  walk Samples.helper_src 35 (Some Samples.helper_comment)
    Samples.helper_def [] =
    [chunk_of Samples.helper_src (Some Samples.helper_comment)
       Samples.helper_def] ∧
  walk Samples.helper_src 25 (Some Samples.helper_comment)
    Samples.helper_def [] =
    walk_children Samples.helper_src 25 None
      (children Samples.helper_def) [].
Proof.
  split.
  - apply (size_test_on_extended_text Samples.helper_src 35
             (Some Samples.helper_comment) Samples.helper_def);
      [vm_compute; done | vm_compute; discriminate].
  - apply (size_test_on_extended_text Samples.helper_src 25
             (Some Samples.helper_comment) Samples.helper_def);
      [vm_compute; done | vm_compute; reflexivity].
Defined.

(** ** The comment in front *)

Lemma effective_start_comment p node :
  type p = "comment" → effective_start (Some p) node = start_byte p.
Proof. intros Hp. unfold effective_start. by rewrite bool_decide_eq_true_2. Qed.

Lemma effective_start_other p node :
  type p ≠ "comment" → effective_start (Some p) node = start_byte node.
Proof. intros Hp. unfold effective_start. by rewrite bool_decide_eq_false_2. Qed.

(** The previous sibling only matters through the effective start. *)
Lemma walk_prev_irrelevant code max_chars prev prev' node chunks :
  effective_start prev node = effective_start prev' node →
  walk code max_chars prev node chunks = walk code max_chars prev' node chunks.
Proof.
  intros He. rewrite !walk_eq. unfold too_big, chunk_of. by rewrite He.
Qed.

(** Siblings before the previous one do not reach the walk of a child. *)
Lemma walk_children_split code max_chars before :
  ∀ prev0 p rest,
    walk_children code max_chars prev0 (before ++ p :: rest) [] =
      walk_children code max_chars prev0 (before ++ [p]) [] ++
      walk_children code max_chars (Some p) rest [].
Proof.
  induction before as [|b before IH]; intros prev0 p rest.
  - cbn [app]. rewrite !walk_children_cons_nil. cbn. by rewrite app_nil_r.
  - cbn [app]. rewrite !walk_children_cons_nil, IH. by rewrite app_assoc.
Qed.

(** C10. Only the tag ["comment"] moves the start.  After a sibling with any
    other tag the walk of a chunk unit is the walk of the same node without a
    previous sibling, and the text of the chunk, when the node is kept, starts
    at the node's own [start_byte]. *)
Theorem only_comment_tag_extends code max_chars p node chunks :
  type p ≠ "comment" →
  type node ∈ CHUNK_NODES →
  effective_start (Some p) node = start_byte node ∧
  walk code max_chars (Some p) node chunks =
    walk code max_chars None node chunks ∧
  ((own_size code node ≤ max_chars)%Z →
   walk code max_chars (Some p) node chunks =
     chunks ++ [ {| chunk_type := type node;
                    chunk_text := slice code (start_byte node) (end_byte node);
                    start_line := fst (start_point node);
                    end_line := fst (end_point node) |} ]).
Proof.
  intros Hp Hin.
  pose proof (effective_start_other p node Hp) as He.
  split; [done|]. split.
  - by apply walk_prev_irrelevant.
  - intros Hle. unfold own_size in Hle. rewrite <- He in Hle.
    apply too_big_false in Hle.
    rewrite (walk_fits _ _ _ _ _ Hin Hle). unfold chunk_of. by rewrite He.
Qed.

(** After a [line_comment] the helper function starts at its own [def]. *)
Lemma only_comment_tag_extends_witness :
  walk Samples.helper_src 1500 (Some Samples.line_comment)
    Samples.helper_def [] =
    [ {| chunk_type := "function_definition";
         chunk_text := of_string "def helper(x): return x";
         start_line := 1;
         end_line := 1 |} ].
Proof.
  apply (only_comment_tag_extends Samples.helper_src 1500
           Samples.line_comment Samples.helper_def []);
    [vm_compute; discriminate | vm_compute; done | vm_compute; discriminate].
Defined.

(** C6. The text of an emitted chunk starts at the previous sibling's
    [start_byte] when that sibling is tagged ["comment"], and at the node's
    own [start_byte] otherwise.  The previous sibling handed to a child is the
    child right before it in the list its parent loops over, whatever comes
    earlier or later in that list, and the first child has none. *)
Theorem comment_extension_one_sibling code max_chars :
  (∀ prev node chunks,
     type node ∈ CHUNK_NODES →
     too_big code max_chars prev node = false →
     walk code max_chars prev node chunks =
       chunks ++
       [ {| chunk_type := type node;
            chunk_text :=
              slice code
                (match prev with
                 | Some p =>
                     if bool_decide (type p = "comment") then start_byte p
                     else start_byte node
                 | None => start_byte node
                 end)
                (end_byte node);
            start_line := fst (start_point node);
            end_line := fst (end_point node) |} ]) ∧
  (∀ prev0 parent before p node after,
     children parent = before ++ p :: node :: after →
     type parent ∉ CHUNK_NODES ∨ too_big code max_chars prev0 parent = true →
     walk code max_chars prev0 parent [] =
       walk_children code max_chars None (before ++ [p]) [] ++
       walk code max_chars (Some p) node [] ++
       walk_children code max_chars (Some node) after []) ∧
  (∀ prev0 parent node after,
     children parent = node :: after →
     type parent ∉ CHUNK_NODES ∨ too_big code max_chars prev0 parent = true →
     walk code max_chars prev0 parent [] =
       walk code max_chars None node [] ++
       walk_children code max_chars (Some node) after []).
Proof.
  assert (Hloop : ∀ prev0 parent,
            type parent ∉ CHUNK_NODES
            ∨ too_big code max_chars prev0 parent = true →
            walk code max_chars prev0 parent [] =
              walk_children code max_chars None (children parent) []).
  { intros prev0 parent [Hout|Hbig].
    - by apply walk_other.
    - rewrite walk_eq, Hbig. by destruct (bool_decide _). }
  split; [|split].
  - intros prev node chunks Hin Hfit.
    rewrite walk_unit by done. by rewrite Hfit.
  - intros prev0 parent before p node after Hcs Hrec.
    rewrite (Hloop _ _ Hrec), Hcs, walk_children_split.
    by rewrite walk_children_cons_nil.
  - intros prev0 parent node after Hcs Hrec.
    by rewrite (Hloop _ _ Hrec), Hcs, walk_children_cons_nil.
Qed.

(** Two comments in a row: the chunk starts at the second one. *)
Lemma comment_extension_one_sibling_witness :
  walk Samples.helper_src 1500 None
    (mkNode "module" 0 35 (0, 0) (1, 23)
       [ Samples.leaf "comment" 0 6 0 0; Samples.leaf "comment" 7 11 0 7;
         Samples.helper_def ]) [] =
    [ {| chunk_type := "function_definition";
         chunk_text := of_string "r fn
def helper(x): return x";
         start_line := 1;
         end_line := 1 |} ].
Proof.
  destruct (comment_extension_one_sibling Samples.helper_src 1500)
    as (Hemit & Hnext & _).
  rewrite (Hnext None
             (mkNode "module" 0 35 (0, 0) (1, 23)
                [ Samples.leaf "comment" 0 6 0 0; Samples.leaf "comment" 7 11 0 7;
                  Samples.helper_def ])
             [Samples.leaf "comment" 0 6 0 0]
             (Samples.leaf "comment" 7 11 0 7) Samples.helper_def [] eq_refl)
    by (left; vm_compute; discriminate).
  rewrite (Hemit (Some (Samples.leaf "comment" 7 11 0 7)) Samples.helper_def [])
    by (vm_compute; done).
  reflexivity.
Defined.

(** ** Which nodes are chunk units *)

Lemma CHUNK_NODES_elems node_type :
  node_type ∈ CHUNK_NODES ↔
  node_type = "class_definition" ∨ node_type = "function_definition" ∨
  node_type = "method_definition" ∨ node_type = "class_declaration" ∨
  node_type = "function_declaration" ∨ node_type = "func_literal" ∨
  node_type = "function_item" ∨ node_type = "impl_item".
Proof.
  unfold CHUNK_NODES.
  rewrite elem_of_list_to_set, !elem_of_cons, elem_of_nil. tauto.
Qed.

(** C3, as stated, fails: the test does not look at the language.  In a
    Python file a node tagged [function_item] or [method_definition] is a
    chunk unit, although neither tag is in the allow-list the specification
    gives for Python. *)
Lemma classification_ignores_language :
  allow_list_spec "python" =
    Some ({[ "class_definition"; "function_definition" ]} : gset string) ∧
  is_chunk_unit "function_item" "python" = true ∧
  ("function_item" ∉
     ({[ "class_definition"; "function_definition" ]} : gset string)) ∧
  is_chunk_unit "method_definition" "python" = true ∧
  ("method_definition" ∉
     ({[ "class_definition"; "function_definition" ]} : gset string)).
Proof. repeat split; try done; set_solver. Qed.

(** C3, amended.  Classification is a pure lookup in one set shared by all
    languages: a tag is a chunk unit exactly when it is one of the eight tags
    of [CHUNK_NODES], whatever the language, every other tag classifies as
    false, and this lookup is the test the walk branches on. *)
Theorem chunk_unit_lookup node_type language :
  (is_chunk_unit node_type language = true ↔
   node_type = "class_definition" ∨ node_type = "function_definition" ∨
   node_type = "method_definition" ∨ node_type = "class_declaration" ∨
   node_type = "function_declaration" ∨ node_type = "func_literal" ∨
   node_type = "function_item" ∨ node_type = "impl_item") ∧
  (∀ language', is_chunk_unit node_type language' =
                is_chunk_unit node_type language) ∧
  (∀ code max_chars prev node chunks,
     type node = node_type →
     walk code max_chars prev node chunks =
       if is_chunk_unit node_type language then
         if too_big code max_chars prev node
         then walk_children code max_chars None (children node) chunks
         else chunks ++ [chunk_of code prev node]
       else walk_children code max_chars None (children node) chunks).
Proof.
  split; [|split].
  - unfold is_chunk_unit. rewrite bool_decide_eq_true. apply CHUNK_NODES_elems.
  - done.
  - intros code max_chars prev node chunks <-. apply walk_eq.
Qed.

Lemma chunk_unit_lookup_witness :
  walk Samples.bare_src 12 None Samples.bare_item [] =
    [chunk_of Samples.bare_src None Samples.bare_item] ∧
  is_chunk_unit "function_item" "python" = true ∧
  is_chunk_unit "comment" "python" = false.
Proof.
  destruct (chunk_unit_lookup "function_item" "python") as (Hiff & _ & Hwalk).
  split; [|split].
  - by rewrite (Hwalk Samples.bare_src 12%Z None Samples.bare_item [] eq_refl).
  - apply Hiff. do 6 right. by left.
  - reflexivity.
Defined.

(** ** The whole-file fallback *)

Lemma truthy_true {A} (l : list A) : truthy l = true ↔ l ≠ [].
Proof. by destruct l. Qed.

Lemma truthy_false {A} (l : list A) : truthy l = false ↔ l = [].
Proof. by destruct l. Qed.

Lemma lstrip_nil s : lstrip s = [] ↔ Forall (λ c, is_space c = true) s.
Proof.
  induction s as [|c s IH]; cbn.
  - split; [constructor|done].
  - destruct (is_space c) eqn:Hc.
    + rewrite IH. split; [by constructor|by inversion 1].
    + split; [done|]. inversion 1; congruence.
Qed.

Lemma lstrip_head s c s' : lstrip s = c :: s' → is_space c = false.
Proof.
  induction s as [|d s IH]; cbn; [done|].
  destruct (is_space d) eqn:Hd; [done|]. by intros [= <- _].
Qed.

(** [strip] leaves nothing exactly of the empty and the all-whitespace
    strings. *)
Lemma strip_nil s : strip s = [] ↔ Forall (λ c, is_space c = true) s.
Proof.
  unfold strip, rstrip. split.
  - intros H. apply (f_equal reverse) in H.
    rewrite reverse_involutive, reverse_nil in H.
    apply lstrip_nil in H. rewrite Forall_reverse in H.
    destruct (lstrip s) as [|c s'] eqn:Hs; [by apply lstrip_nil|].
    apply lstrip_head in Hs. apply Forall_cons in H as [H _]. congruence.
  - intros H. apply lstrip_nil in H. by rewrite H.
Qed.

(** When the line feed is the only line boundary in the source, the lines of
    [splitlines] are the newline-delimited lines. *)
Lemma splitlines_from_newline_lines s :
  Forall (λ c, is_linebreak c = true → c = 10%N) s →
  ∀ cur, length (splitlines_from cur s) = newline_lines (truthy cur) s.
Proof.
  induction 1 as [|c s Hc Hs IH]; intros cur.
  - by destruct cur.
  - cbn [splitlines_from newline_lines].
    destruct (is_linebreak c) eqn:Hlb.
    + rewrite (Hc eq_refl), N.eqb_refl. cbn [length]. f_equal.
      specialize (IH []). cbn [truthy] in IH. rewrite <- IH.
      by destruct s.
    + destruct (N.eqb_spec c 10) as [->|_]; [done|]. apply (IH (c :: cur)).
Qed.

(** Other boundaries count as well: a lone carriage return ends a line. *)
Example splitlines_carriage_return :
  length (splitlines [97; 13; 98]%N) = 2 ∧ newline_lines false [97; 13; 98]%N = 1.
Proof. split; reflexivity. Qed.

(** Every line feed ends a line of [splitlines], alone or after a carriage
    return, so there are at least as many lines as newline-delimited ones. *)
Lemma newline_lines_le_splitlines :
  ∀ n s cur,
    length s ≤ n →
    newline_lines false s ≤ length (splitlines_from cur s) ∧
    newline_lines true s ≤
      length (splitlines_from cur s) + (if truthy cur then 0 else 1).
Proof.
  induction n as [|n IH]; intros s cur Hn.
  - destruct s; [|cbn in Hn; lia]. destruct cur; cbn; lia.
  - destruct s as [|c s]; [destruct cur; cbn; lia|].
    cbn [length] in Hn. cbn [splitlines_from newline_lines].
    destruct (is_linebreak c) eqn:Hlb.
    + cbn [length]. destruct s as [|c' s'].
      * cbn. destruct (c =? 10)%N, (truthy cur); lia.
      * cbn [length] in Hn.
        destruct ((c =? 13)%N && (c' =? 10)%N) eqn:Hcrlf.
        -- apply andb_true_iff in Hcrlf as [Hc Hc'].
           apply N.eqb_eq in Hc as ->. apply N.eqb_eq in Hc' as ->.
           destruct (IH s' [] ltac:(lia)) as [H _].
           cbn [newline_lines N.eqb Pos.eqb].
           change (13 =? 10)%N with false. change (10 =? 10)%N with true.
           cbn iota. lia.
        -- destruct (IH (c' :: s') [] ltac:(cbn; lia)) as [H1 H2].
           cbn [truthy] in H2. destruct (c =? 10)%N; lia.
    + destruct (N.eqb_spec c 10) as [->|_]; [done|].
      destruct (IH s (c :: cur) ltac:(lia)) as [_ H]. cbn [truthy] in H.
      lia.
Qed.

(** C4, as stated, fails: [end_line] is not the number of newline-delimited
    lines for every source.  A source of three characters with a form feed
    in the middle has no line feed and is one such line, while the whole-file
    chunk ends at line 2: [splitlines] also splits at form feeds. *)
Lemma fallback_end_line_form_feed :
  parse_root [97; 12; 98]%N 1500 (mkNode "module" 0 3 (0, 0) (0, 3) []) =
    [ {| chunk_type := "file";
         chunk_text := [97; 12; 98]%N;
         start_line := 0;
         end_line := 2 |} ] ∧
  newline_lines false [97; 12; 98]%N = 1.
Proof. split; reflexivity. Qed.

(** C4, amended.  The whole-file chunk is appended exactly when the walk
    found no chunk and the stripped source is not empty; the result is then
    that one chunk, of type ["file"], with the whole source as text, starting
    at line 0 and ending at the number of lines of [splitlines].  That number
    is at least the number of newline-delimited lines, and equal to it when
    the line feed is the only line boundary in the source.  For an empty or
    all-whitespace source nothing is appended: the result is the list of the
    walk, so the empty list when the walk found nothing.  Chunks of the walk
    are never joined by the whole-file chunk. *)
Theorem fallback_iff code max_chars root_node :
  let chunks := walk code max_chars None root_node [] in
  (parse_root code max_chars root_node = chunks ++ [file_chunk code] ↔
   chunks = [] ∧ strip code ≠ []) ∧
  (chunks = [] → strip code ≠ [] →
   parse_root code max_chars root_node =
     [ {| chunk_type := "file";
          chunk_text := code;
          start_line := 0;
          end_line := length (splitlines code) |} ]) ∧
  (Forall (λ c, is_space c = true) code →
   parse_root code max_chars root_node = chunks ∧
   (chunks = [] → parse_root code max_chars root_node = [])) ∧
  (chunks ≠ [] → parse_root code max_chars root_node = chunks) ∧
  newline_lines false code ≤ end_line (file_chunk code) ∧
  (Forall (λ c, is_linebreak c = true → c = 10%N) code →
   end_line (file_chunk code) = newline_lines false code).
Proof.
  intros chunks.
  assert (Hres : parse_root code max_chars root_node =
                   if negb (truthy chunks) && truthy (strip code)
                   then chunks ++ [file_chunk code] else chunks)
    by reflexivity.
  assert (Hno : chunks ≠ chunks ++ [file_chunk code]).
  { intros H. apply (f_equal length) in H.
    rewrite length_app in H. cbn in H. lia. }
  rewrite Hres. clear Hres.
  destruct (truthy chunks) eqn:Hc; destruct (truthy (strip code)) eqn:Hs;
    cbn [negb andb].
  all: try apply truthy_true in Hc; try apply truthy_false in Hc.
  all: try apply truthy_true in Hs; try apply truthy_false in Hs.
  all: split; [split; [intros H; by try (exfalso; by apply Hno)
                      | by intros [? ?]] |].
  all: split; [intros H1 H2; by try rewrite H1|].
  all: split; [intros Hblank; apply strip_nil in Hblank; by try split|].
  all: split; [by intros ?|].
  all: split;
    [apply (newline_lines_le_splitlines (length code) code [] (le_n _))|].
  all: intros Hlf; apply (splitlines_from_newline_lines code Hlf []).
Qed.

(** The flat script has no chunk unit: one chunk for its two lines. *)
Lemma fallback_iff_witness :
  parse_root Samples.flat_src 1500 Samples.flat_module =
    [ {| chunk_type := "file";
         chunk_text := Samples.flat_src;
         start_line := 0;
         end_line := 2 |} ] ∧
  parse_root (of_string "   ") 1500 (mkNode "module" 0 3 (0, 0) (0, 3) []) = [] ∧
  end_line (file_chunk Samples.flat_src) = 2.
Proof.
  split; [|split].
  - pose proof (fallback_iff Samples.flat_src 1500 Samples.flat_module) as H.
    cbv zeta in H. destruct H as (_ & H & _).
    apply H; [reflexivity | vm_compute; discriminate].
  - pose proof (fallback_iff (of_string "   ") 1500
                  (mkNode "module" 0 3 (0, 0) (0, 3) [])) as H.
    cbv zeta in H. destruct H as (_ & _ & H & _).
    apply H; [repeat constructor | reflexivity].
  - pose proof (fallback_iff Samples.flat_src 1500 Samples.flat_module) as H.
    cbv zeta in H. destruct H as (_ & _ & _ & _ & _ & H).
    rewrite H; [reflexivity|].
    repeat constructor; vm_compute; congruence.
Defined.

(** ** The entry point *)

(** C9, at the failing input.  When reading the file raises and the standard
    output rejects the message of the handler, [chunk_file] does not return
    the empty list: the exception of [print] is raised inside the handler and
    leaves [chunk_file].  The paths that return before the [try], a missing
    tree-sitter and an unknown extension, print nothing and return the empty
    list. *)
Theorem chunk_file_raises_in_handler :
  read_text Fixtures.unprintable_env "src/app/missing.py" =
    Raise "FileNotFoundError" ∧
  chunk_file Fixtures.unprintable_env "src/app/missing.py" default_max_chars =
    Raise "UnicodeEncodeError" ∧
  chunk_file Fixtures.unprintable_env "notes/README.txt" default_max_chars =
    Ok [].
Proof. repeat split; reflexivity. Qed.

(** ** The calls of the walk *)

(** Induction on a node together with the list of its children. *)
Lemma Node_children_ind (P : Node → Prop) (Q : list Node → Prop) :
  (∀ t sb eb sp ep cs, Q cs → P (mkNode t sb eb sp ep cs)) →
  Q [] →
  (∀ child cs, P child → Q cs → Q (child :: cs)) →
  (∀ node, P node) ∧ (∀ cs, Q cs).
Proof.
  intros Hnode Hnil Hcons.
  assert (HP : ∀ node, P node).
  { induction node as [t sb eb sp ep cs IH] using Node_ind.
    apply Hnode. induction IH; auto. }
  split; [done|]. induction cs; auto.
Qed.

Lemma calls_eq code max_chars pos prev node :
  calls code max_chars pos prev node =
    mkCall pos prev node ::
      if bool_decide (type node ∈ CHUNK_NODES) then
        if too_big code max_chars prev node
        then calls_children code max_chars pos 0 None (children node)
        else []
      else calls_children code max_chars pos 0 None (children node).
Proof. destruct node; reflexivity. Qed.

(** What is below a kept call is not walked. *)
Lemma calls_kept code max_chars pos prev node :
  kept code max_chars (mkCall pos prev node) = true →
  calls code max_chars pos prev node = [mkCall pos prev node].
Proof.
  unfold kept. cbn [call_node call_prev]. rewrite calls_eq.
  destruct (bool_decide _); [|done]. by destruct (too_big _ _ _ _).
Qed.

Lemma calls_not_kept code max_chars pos prev node :
  kept code max_chars (mkCall pos prev node) = false →
  calls code max_chars pos prev node =
    mkCall pos prev node ::
      calls_children code max_chars pos 0 None (children node).
Proof.
  unfold kept. cbn [call_node call_prev]. rewrite calls_eq.
  destruct (bool_decide _); [|done]. by destruct (too_big _ _ _ _).
Qed.

Lemma walk_by_kept code max_chars prev node pos :
  walk code max_chars prev node [] =
    if kept code max_chars (mkCall pos prev node)
    then [chunk_of code prev node]
    else walk_children code max_chars None (children node) [].
Proof.
  unfold kept. cbn [call_node call_prev]. rewrite walk_eq.
  destruct (bool_decide _); [|done]. by destruct (too_big _ _ _ _).
Qed.

(** The chunks of the walk are the chunks of its kept calls, in the order of
    the calls. *)
Lemma walk_calls_both code max_chars :
  (∀ node pos prev,
     walk code max_chars prev node [] =
       chunk_of_call code <$>
         filter (λ c, kept code max_chars c = true)
           (calls code max_chars pos prev node)) ∧
  (∀ cs pos i prev,
     walk_children code max_chars prev cs [] =
       chunk_of_call code <$>
         filter (λ c, kept code max_chars c = true)
           (calls_children code max_chars pos i prev cs)).
Proof.
  apply Node_children_ind.
  - intros t sb eb sp ep cs Hcs pos prev.
    set (node := mkNode t sb eb sp ep cs).
    rewrite (walk_by_kept _ _ _ _ pos).
    destruct (kept code max_chars (mkCall pos prev node)) eqn:Hk.
    + rewrite calls_kept by done.
      rewrite filter_cons_True by done. done.
    + rewrite calls_not_kept by done.
      rewrite filter_cons_False by (rewrite Hk; done).
      apply Hcs.
  - done.
  - intros child cs Hchild Hcs pos i prev.
    rewrite walk_children_cons_nil. cbn [calls_children].
    rewrite filter_app, fmap_app. by rewrite <- Hchild, <- Hcs.
Qed.

Lemma walk_calls code max_chars node pos prev :
  walk code max_chars prev node [] =
    chunk_of_call code <$>
      filter (λ c, kept code max_chars c = true)
        (calls code max_chars pos prev node).
Proof. apply walk_calls_both. Qed.

(** Every call is made on the node at its position. *)
Lemma calls_node_at_both code max_chars :
  (∀ node pos prev c,
     c ∈ calls code max_chars pos prev node →
     ∃ r, call_pos c = pos ++ r ∧ node_at node r = Some (call_node c)) ∧
  (∀ cs pos i prev c,
     c ∈ calls_children code max_chars pos i prev cs →
     ∃ k r child,
       call_pos c = pos ++ (i + k) :: r ∧ cs !! k = Some child ∧
       node_at child r = Some (call_node c)).
Proof.
  apply Node_children_ind.
  - intros t sb eb sp ep cs Hcs pos prev c.
    rewrite calls_eq. cbn [children type].
    intros [->|Hin]%elem_of_cons.
    + exists []. by rewrite app_nil_r.
    + assert (Hin' : c ∈ calls_children code max_chars pos 0 None cs).
      { repeat case_match; try done; by apply elem_of_nil in Hin. }
      apply Hcs in Hin' as (k & r & child & Hpos & Hk & Hat).
      exists (k :: r). split; [done|]. cbn. by rewrite Hk.
  - intros pos i prev c. cbn. by intros ?%elem_of_nil.
  - intros child cs Hchild Hcs pos i prev c. cbn [calls_children].
    intros [Hin|Hin]%elem_of_app.
    + apply Hchild in Hin as (r & Hpos & Hat).
      exists 0, r, child. rewrite Nat.add_0_r.
      by rewrite Hpos, <- app_assoc.
    + apply Hcs in Hin as (k & r & child' & Hpos & Hk & Hat).
      exists (S k), r, child'. split; [|done].
      rewrite Hpos. do 2 f_equal. lia.
Qed.

Lemma calls_node_at code max_chars node pos prev c :
  c ∈ calls code max_chars pos prev node →
  ∃ r, call_pos c = pos ++ r ∧ node_at node r = Some (call_node c).
Proof. apply calls_node_at_both. Qed.

Lemma calls_children_below code max_chars cs pos i prev c :
  c ∈ calls_children code max_chars pos i prev cs →
  ∃ j r, i ≤ j ∧ call_pos c = pos ++ j :: r.
Proof.
  intros (k & r & child & Hpos & _)%calls_node_at_both.
  exists (i + k), r. split; [lia|done].
Qed.

(** *** Document order of positions *)

Lemma pos_lt_below p j r : pos_lt p (p ++ j :: r).
Proof. induction p; cbn; auto. Qed.

Lemma pos_lt_siblings p i j r r' : i < j → pos_lt (p ++ i :: r) (p ++ j :: r').
Proof. intros Hij. induction p; cbn; auto. Qed.

Lemma pos_lt_irrefl p : ¬ pos_lt p p.
Proof.
  induction p as [|i p IH]; cbn.
  - intros [].
  - intros [?|[_ ?]]; [lia|done].
Qed.

Lemma prefix_siblings (p : list nat) i j r r' :
  p ++ i :: r `prefix_of` p ++ j :: r' → i = j.
Proof. intros H%prefix_app_inv. by apply prefix_cons_inv_1 in H. Qed.

Lemma prefix_below_not (p : list nat) j r : ¬ p ++ j :: r `prefix_of` p.
Proof.
  intros H%prefix_length. rewrite length_app in H. cbn in H. lia.
Qed.

Lemma StronglySorted_filter {A} (R : relation A) (P : A → Prop)
    `{!∀ x, Decision (P x)} l :
  StronglySorted R l → StronglySorted R (filter P l).
Proof.
  induction 1 as [|x l Hl IH Hx]; [constructor|].
  rewrite filter_cons. case_decide; [|done].
  constructor; [done|].
  apply Forall_forall. intros y [_ Hy]%list_elem_of_filter.
  by eapply Forall_forall in Hx.
Qed.

Lemma StronglySorted_lookup {A} (R : relation A) l i j a b :
  StronglySorted R l → i < j → l !! i = Some a → l !! j = Some b → R a b.
Proof.
  intros Hl. revert i j. induction Hl as [|x l Hl IH Hx]; intros i j Hij.
  - done.
  - destruct j as [|j]; [lia|]. destruct i as [|i]; cbn.
    + intros [= ->] Hb. eapply Forall_forall in Hx; [done|].
      by eapply list_elem_of_lookup_2.
    + apply IH. lia.
Qed.

Lemma StronglySorted_NoDup {A} (R : relation A) l :
  (∀ x, ¬ R x x) → StronglySorted R l → NoDup l.
Proof.
  intros Hirr. induction 1 as [|x l Hl IH Hx]; constructor; [|done].
  intros Hin. eapply Forall_forall in Hx; [|done]. by eapply Hirr.
Qed.

(** The calls are made in document order. *)
Lemma calls_sorted_both code max_chars :
  (∀ node pos prev,
     StronglySorted call_before (calls code max_chars pos prev node)) ∧
  (∀ cs pos i prev,
     StronglySorted call_before
       (calls_children code max_chars pos i prev cs)).
Proof.
  apply Node_children_ind.
  - intros t sb eb sp ep cs Hcs pos prev.
    set (node := mkNode t sb eb sp ep cs).
    destruct (kept code max_chars (mkCall pos prev node)) eqn:Hk.
    + rewrite calls_kept by done. repeat constructor.
    + rewrite calls_not_kept by done. constructor; [apply Hcs|].
      apply Forall_forall. intros c (j & r & _ & Hc)%calls_children_below.
      unfold call_before. cbn [call_pos]. rewrite Hc. apply pos_lt_below.
  - constructor.
  - intros child cs Hchild Hcs pos i prev. cbn [calls_children].
    apply StronglySorted_app_2; [|done..].
    intros c1 c2 (r1 & H1 & _)%calls_node_at (j & r2 & Hj & H2)%calls_children_below.
    unfold call_before. rewrite H1, H2, <- app_assoc. cbn [app].
    apply pos_lt_siblings. lia.
Qed.

(** Nothing below a kept call is called. *)
Lemma calls_absorb_both code max_chars :
  (∀ node pos prev c c',
     c ∈ calls code max_chars pos prev node →
     c' ∈ calls code max_chars pos prev node →
     kept code max_chars c = true →
     call_pos c `prefix_of` call_pos c' →
     call_pos c' = call_pos c) ∧
  (∀ cs pos i prev c c',
     c ∈ calls_children code max_chars pos i prev cs →
     c' ∈ calls_children code max_chars pos i prev cs →
     kept code max_chars c = true →
     call_pos c `prefix_of` call_pos c' →
     call_pos c' = call_pos c).
Proof.
  apply Node_children_ind.
  - intros t sb eb sp ep cs Hcs pos prev c c'.
    set (node := mkNode t sb eb sp ep cs).
    destruct (kept code max_chars (mkCall pos prev node)) eqn:Hk.
    + rewrite calls_kept by done.
      by intros ->%list_elem_of_singleton ->%list_elem_of_singleton.
    + rewrite calls_not_kept by done. cbn [children].
      intros [->|Hc]%elem_of_cons Hc' Hkept Hpre; [congruence|].
      apply elem_of_cons in Hc' as [->|Hc']; [|by eapply Hcs].
      apply calls_children_below in Hc as (j & r & _ & Hc).
      rewrite Hc in Hpre. cbn [call_pos] in Hpre.
      by apply prefix_below_not in Hpre.
  - intros pos i prev c c'. cbn. by intros ?%elem_of_nil.
  - intros child cs Hchild Hcs pos i prev c c'. cbn [calls_children].
    intros [Hc|Hc]%elem_of_app [Hc'|Hc']%elem_of_app Hkept Hpre.
    + by eapply Hchild.
    + apply calls_node_at in Hc as (r & Hc & _).
      apply calls_children_below in Hc' as (j & r' & Hj & Hc').
      rewrite Hc, Hc', <- app_assoc in Hpre. cbn [app] in Hpre.
      apply prefix_siblings in Hpre. lia.
    + apply calls_children_below in Hc as (j & r & Hj & Hc).
      apply calls_node_at in Hc' as (r' & Hc' & _).
      rewrite Hc, Hc', <- app_assoc in Hpre. cbn [app] in Hpre.
      apply prefix_siblings in Hpre. lia.
    + by eapply Hcs.
Qed.

Lemma calls_absorb code max_chars node pos prev c c' :
  c ∈ calls code max_chars pos prev node →
  c' ∈ calls code max_chars pos prev node →
  kept code max_chars c = true →
  call_pos c `prefix_of` call_pos c' →
  call_pos c' = call_pos c.
Proof. apply calls_absorb_both. Qed.

Lemma NoDup_fmap_eq {A B} (f : A → B) (l : list A) x y :
  NoDup (f <$> l) → x ∈ l → y ∈ l → f x = f y → x = y.
Proof.
  induction l as [|a l IH]; csimpl; [by intros _ ?%elem_of_nil|].
  intros [Ha Hl]%NoDup_cons [->|Hx]%elem_of_cons [->|Hy]%elem_of_cons Hf;
    [done| | |by apply IH].
  - destruct Ha. rewrite Hf. by apply list_elem_of_fmap_2.
  - destruct Ha. rewrite <- Hf. by apply list_elem_of_fmap_2.
Qed.

Lemma calls_pos_NoDup code max_chars pos prev node :
  NoDup (call_pos <$> calls code max_chars pos prev node).
Proof.
  apply (StronglySorted_NoDup pos_lt); [apply pos_lt_irrefl|].
  apply (StronglySorted_fmap _ call_before); [done|].
  apply calls_sorted_both.
Qed.

(** C7. Every node is classified at most once and lies in at most one chunk.
    The calls of the walk are made on the nodes at their positions, no
    position is called twice, and the chunks are those of the kept calls.
    Below a kept call no call is made: a call at or below its position is the
    kept call itself.  So a position lies at or below at most one kept
    call. *)
Theorem walk_visits_once code max_chars root :
  let log := calls code max_chars [] None root in
  walk code max_chars None root [] =
    (chunk_of_call code <$> filter (λ c, kept code max_chars c = true) log) ∧
  (∀ c, c ∈ log → node_at root (call_pos c) = Some (call_node c)) ∧
  NoDup (call_pos <$> log) ∧
  (∀ c c',
     c ∈ log → c' ∈ log →
     kept code max_chars c = true →
     call_pos c `prefix_of` call_pos c' →
     c' = c) ∧
  (∀ c1 c2 q,
     c1 ∈ log → c2 ∈ log →
     kept code max_chars c1 = true → kept code max_chars c2 = true →
     call_pos c1 `prefix_of` q → call_pos c2 `prefix_of` q →
     c1 = c2).
Proof.
  intros log.
  assert (Hdup : NoDup (call_pos <$> log)) by apply calls_pos_NoDup.
  assert (Habs : ∀ c c',
            c ∈ log → c' ∈ log →
            kept code max_chars c = true →
            call_pos c `prefix_of` call_pos c' →
            c' = c).
  { intros c c' Hc Hc' Hk Hpre.
    apply (NoDup_fmap_eq call_pos log); try done.
    by apply (calls_absorb code max_chars root [] None). }
  split; [apply walk_calls|].
  split.
  { intros c (r & Hpos & Hat)%calls_node_at. by rewrite Hpos. }
  split; [done|]. split; [done|].
  intros c1 c2 q Hc1 Hc2 Hk1 Hk2 Hq1 Hq2.
  destruct (prefix_weak_total _ _ _ Hq1 Hq2); [symmetry|]; by apply Habs.
Qed.

(** The class is kept with a budget of 1500: its method, two levels below,
    is not called. *)
Lemma walk_visits_once_witness :
  (mkCall [0; 2; 0] None Samples.class_method ∉
     calls Samples.class_src 1500 [] None Samples.class_module) ∧
  mkCall [0] None Samples.class_def = mkCall [0] None Samples.class_def.
Proof.
  pose proof (walk_visits_once Samples.class_src 1500 Samples.class_module)
    as H.
  cbv zeta in H. destruct H as (_ & _ & _ & Habs & Hone).
  assert (Hin : mkCall [0] None Samples.class_def ∈
                  calls Samples.class_src 1500 [] None Samples.class_module).
  { vm_compute. apply list_elem_of_further, list_elem_of_here. }
  split.
  - intros Hm.
    assert (E := Habs _ _ Hin Hm eq_refl (ex_intro _ [2; 0] eq_refl)).
    discriminate E.
  - exact (Hone _ _ [0; 2; 0] Hin Hin eq_refl eq_refl
             (ex_intro _ [2; 0] eq_refl) (ex_intro _ [2; 0] eq_refl)).
Defined.

(** ** The order of the chunks *)

Lemma doc_ordered_eq node :
  doc_ordered node =
    point_leb (start_point node) (end_point node)
    && ordered_from (end_point node) (start_point node) (children node).
Proof. destruct node; reflexivity. Qed.

Lemma point_leb_row a b : point_leb a b = true → fst a ≤ fst b.
Proof.
  unfold point_leb. intros [H|[H _]%andb_true_iff]%orb_true_iff.
  - apply Nat.ltb_lt in H. lia.
  - apply Nat.eqb_eq in H. lia.
Qed.

Lemma doc_ordered_rows node :
  doc_ordered node = true → fst (start_point node) ≤ fst (end_point node).
Proof.
  rewrite doc_ordered_eq. intros [H _]%andb_true_iff. by apply point_leb_row.
Qed.

(** In a tree in document order the chunks of a node start on rows of the
    node, in non-decreasing order; those of a list of children start between
    the end of what precedes and the end of the parent. *)
Lemma walk_lines_both code max_chars :
  (∀ node prev,
     doc_ordered node = true →
     (∀ c, c ∈ walk code max_chars prev node [] →
           fst (start_point node) ≤ start_line c ≤ fst (end_point node)) ∧
     StronglySorted line_le (walk code max_chars prev node [])) ∧
  (∀ cs hi lo prev,
     ordered_from hi lo cs = true →
     (∀ c, c ∈ walk_children code max_chars prev cs [] →
           fst lo ≤ start_line c ≤ fst hi) ∧
     StronglySorted line_le (walk_children code max_chars prev cs [])).
Proof.
  apply Node_children_ind.
  - intros t sb eb sp ep cs Hcs prev Hord.
    set (node := mkNode t sb eb sp ep cs) in *.
    pose proof (doc_ordered_rows _ Hord) as Hrows.
    rewrite doc_ordered_eq in Hord. apply andb_true_iff in Hord as [_ Hord].
    rewrite (walk_by_kept _ _ _ _ []).
    destruct (kept _ _ _).
    + split; [|repeat constructor].
      intros c ->%list_elem_of_singleton. cbn [chunk_of start_line]. lia.
    + by apply Hcs.
  - intros hi lo prev _. cbn. split; [by intros c ?%elem_of_nil|constructor].
  - intros child cs Hchild Hcs hi lo prev Hord. cbn [ordered_from] in Hord.
    apply andb_true_iff in Hord as [Hord Hrest].
    apply andb_true_iff in Hord as [Hord Hdoc].
    apply andb_true_iff in Hord as [Hlo Hhi].
    apply point_leb_row in Hlo, Hhi.
    pose proof (doc_ordered_rows _ Hdoc) as Hrows.
    destruct (Hchild prev Hdoc) as [Hb1 Hs1].
    destruct (Hcs hi (end_point child) (Some child) Hrest) as [Hb2 Hs2].
    rewrite walk_children_cons_nil. split.
    + intros c [Hc|Hc]%elem_of_app.
      * apply Hb1 in Hc. lia.
      * apply Hb2 in Hc. lia.
    + apply StronglySorted_app_2; [|done..].
      intros c1 c2 Hc1%Hb1 Hc2%Hb2. unfold line_le. lia.
Qed.

(** C8. When the tree is in document order, the start lines of the chunks
    never decrease along the list, and the chunks come in source order: they
    are the chunks of the kept calls, whose positions strictly increase in
    the pre-order of the tree. *)
Theorem chunks_in_document_order code max_chars root :
  doc_ordered root = true →
  let chunks := walk code max_chars None root [] in
  let kept_calls :=
    filter (λ c, kept code max_chars c = true)
      (calls code max_chars [] None root) in
  (∀ i j a b,
     i ≤ j → chunks !! i = Some a → chunks !! j = Some b →
     start_line a ≤ start_line b) ∧
  chunks = (chunk_of_call code <$> kept_calls) ∧
  StronglySorted call_before kept_calls.
Proof.
  intros Hord chunks kept_calls. split; [|split].
  - intros i j a b Hij Ha Hb.
    destruct (decide (i = j)) as [->|Hne].
    + rewrite Ha in Hb. injection Hb as ->. lia.
    + destruct (walk_lines_both code max_chars) as [Hnode _].
      destruct (Hnode root None Hord) as [_ Hsorted].
      apply (StronglySorted_lookup line_le chunks i j a b); [done|lia|done..].
  - apply walk_calls.
  - apply StronglySorted_filter, calls_sorted_both.
Qed.

(** With a budget of 50 the helper function and, below the split class, its
    method are kept: they start on rows 1 and 5. *)
Lemma chunks_in_document_order_witness :
  doc_ordered Samples.units_module = true ∧
  (start_line <$> walk Samples.units_src 50 None Samples.units_module []) =
    [1; 5] ∧
  start_line (chunk_of Samples.units_src None Samples.units_helper) ≤
    start_line (chunk_of Samples.units_src None Samples.units_method).
Proof.
  split; [reflexivity|]. split; [reflexivity|].
  pose proof (chunks_in_document_order Samples.units_src 50
                Samples.units_module eq_refl) as H.
  cbv zeta in H. destruct H as (H & _ & _).
  apply (H 0 1); [lia | reflexivity | reflexivity].
Defined.

(** * Further properties of the chunker *)

(** ** Slices *)

Lemma slice_length {A} (s : list A) i j :
  length (slice s i j) = min j (length s) - i.
Proof. unfold slice. rewrite length_take, length_drop. lia. Qed.

Lemma slice_infix {A} (s : list A) i j :
  s = take i s ++ slice s i j ++ drop (j - i) (drop i s).
Proof. unfold slice. by rewrite take_drop, take_drop. Qed.

Lemma slice_split {A} (s : list A) i j k :
  i ≤ j → j ≤ k → slice s i k = slice s i j ++ slice s j k.
Proof.
  intros Hij Hjk. unfold slice.
  replace (k - i) with ((j - i) + (k - j)) by lia.
  rewrite <- take_take_drop, drop_drop.
  by replace (i + (j - i)) with j by lia.
Qed.

(** ** What the result is made of *)

Lemma walk_elem_call code max_chars prev node c :
  c ∈ walk code max_chars prev node [] ↔
  ∃ call, call ∈ calls code max_chars [] prev node ∧
          kept code max_chars call = true ∧ c = chunk_of_call code call.
Proof.
  rewrite (walk_calls _ _ _ []), list_elem_of_fmap.
  split.
  - intros (call & -> & [Hk Hin]%list_elem_of_filter). eauto.
  - intros (call & Hin & Hk & ->). exists call. split; [done|].
    by apply list_elem_of_filter.
Qed.

Lemma walk_chunk_type code max_chars prev node c :
  c ∈ walk code max_chars prev node [] → chunk_type c ∈ CHUNK_NODES.
Proof.
  intros (call & _ & Hk & ->)%walk_elem_call.
  unfold kept in Hk. apply andb_true_iff in Hk as [Hk _].
  by apply bool_decide_eq_true in Hk.
Qed.

Lemma file_not_unit : "file" ∉ CHUNK_NODES.
Proof. rewrite CHUNK_NODES_elems. intros H. repeat destruct H as [H|H]; done. Qed.

Lemma parse_root_cases code max_chars root_node :
  (walk code max_chars None root_node [] = [] ∧ strip code ≠ [] ∧
   parse_root code max_chars root_node = [file_chunk code]) ∨
  ((walk code max_chars None root_node [] ≠ [] ∨ strip code = []) ∧
   parse_root code max_chars root_node =
     walk code max_chars None root_node []).
Proof.
  unfold parse_root.
  destruct (walk code max_chars None root_node []) as [|c cs] eqn:Hw;
    destruct (strip code) as [|d ds] eqn:Hs; cbn; auto.
Qed.

(** When the walk returns, the result is empty exactly when the walk appended
    no chunk and the source is empty or all whitespace. *)
Lemma parse_root_empty_iff code max_chars root_node :
  parse_root code max_chars root_node = [] ↔
  walk code max_chars None root_node [] = [] ∧
  Forall (λ c, is_space c = true) code.
Proof.
  rewrite <- strip_nil.
  destruct (parse_root_cases code max_chars root_node)
    as [(Hw & Hs & ->)|([Hw|Hs] & ->)].
  - split; [done|]. by intros [_ ?].
  - split; [done|]. by intros [? _].
  - split; [by intros ->|]. by intros [? _].
Qed.

(** X2. The result of [_parse] has one of two shapes.  Either it is the single
    whole-file chunk, the walk having found nothing in a non-blank source; or
    it is the list of the walk, and then every chunk carries the tag of a
    chunk unit, none is tagged ["file"], and every text is within the budget.
    So the whole-file chunk never stands beside other chunks and is the only
    chunk that can exceed [max_chars]. *)
Theorem parse_root_shape code max_chars root_node :
  (parse_root code max_chars root_node = [file_chunk code] ∧
   walk code max_chars None root_node [] = [] ∧ strip code ≠ []) ∨
  (parse_root code max_chars root_node =
     walk code max_chars None root_node [] ∧
   ∀ c, c ∈ parse_root code max_chars root_node →
        chunk_type c ∈ CHUNK_NODES ∧ chunk_type c ≠ "file" ∧
        (Z.of_nat (length (chunk_text c)) ≤ max_chars)%Z).
Proof.
  destruct (parse_root_cases code max_chars root_node)
    as [(Hw & Hs & Hp)|(_ & Hp)]; [by left|right].
  split; [done|]. rewrite Hp. intros c Hc.
  pose proof (walk_chunk_type _ _ _ _ _ Hc) as Ht.
  split; [done|]. split.
  - intros Hf. rewrite Hf in Ht. by apply file_not_unit.
  - by eapply walk_within_budget.
Qed.

Lemma parse_root_shape_witness :
  Forall (λ c, chunk_type c ≠ "file" ∧
               (Z.of_nat (length (chunk_text c)) ≤ 1000)%Z)
    (parse_root Fixtures.nested_src 1000 Samples.units_module).
Proof.
  destruct (parse_root_shape Fixtures.nested_src 1000 Samples.units_module)
    as [(Hp & _)|(_ & H)].
  - vm_compute in Hp. discriminate Hp.
  - apply Forall_forall. intros c Hc. destruct (H c Hc) as (_ & ? & ?). done.
Defined.

(** X3. The text of every chunk is a contiguous piece of the source, taken
    as it is: the source is some text, then the chunk's text, then some
    text.  No chunk holds characters that are not in the file, and none is
    longer than the file. *)
Theorem chunk_text_in_source code max_chars root_node c :
  c ∈ parse_root code max_chars root_node →
  (∃ before after, code = before ++ chunk_text c ++ after) ∧
  length (chunk_text c) ≤ length code.
Proof.
  intros Hc.
  assert (H : ∃ before after, code = before ++ chunk_text c ++ after).
  { destruct (parse_root_cases code max_chars root_node)
      as [(_ & _ & Hp)|(_ & Hp)]; rewrite Hp in Hc.
    - apply list_elem_of_singleton in Hc as ->.
      exists [], []. cbn. by rewrite app_nil_r.
    - apply walk_elem_call in Hc as (call & _ & _ & ->).
      unfold chunk_of_call, chunk_of. cbn [chunk_text].
      eexists _, _. apply slice_infix. }
  split; [done|]. destruct H as (before & after & H).
  apply (f_equal length) in H. rewrite !length_app in H. lia.
Qed.

Lemma chunk_text_in_source_witness :
  ∃ before after,
    Fixtures.nested_src =
      before ++
      chunk_text (chunk_of Fixtures.nested_src None Samples.units_helper) ++
      after.
Proof.
  apply (chunk_text_in_source Fixtures.nested_src 1000 Samples.units_module).
  vm_compute. apply list_elem_of_here.
Defined.

(** ** Extreme budgets *)

Lemma walk_nothing_both code max_chars :
  (max_chars < 0)%Z →
  (∀ node prev chunks, walk code max_chars prev node chunks = chunks) ∧
  (∀ cs prev chunks, walk_children code max_chars prev cs chunks = chunks).
Proof.
  intros Hneg. apply Node_children_ind.
  - intros t sb eb sp ep cs Hcs prev chunks. rewrite walk_eq. cbn [children].
    assert (Hbig : too_big code max_chars prev (mkNode t sb eb sp ep cs) = true).
    { apply too_big_true. lia. }
    rewrite Hbig. by destruct (bool_decide _).
  - done.
  - intros child cs Hchild Hcs prev chunks.
    by rewrite walk_children_cons, Hchild, Hcs.
Qed.

(** With a negative budget a walk that returns has appended nothing. *)
Lemma walk_negative_budget code max_chars root_node :
  (max_chars < 0)%Z →
  walk code max_chars None root_node [] = [] ∧
  parse_root code max_chars root_node =
    if truthy (strip code) then [file_chunk code] else [].
Proof.
  intros Hneg.
  destruct (walk_nothing_both code max_chars Hneg) as [Hw _].
  unfold parse_root. by rewrite Hw.
Qed.

Lemma outermost_eq code prev node :
  outermost code prev node =
    if bool_decide (type node ∈ CHUNK_NODES) then [chunk_of code prev node]
    else outermost_children code None (children node).
Proof. destruct node; reflexivity. Qed.

Lemma too_big_within_source code max_chars prev node :
  (Z.of_nat (length code) ≤ max_chars)%Z →
  too_big code max_chars prev node = false.
Proof.
  intros Hle. apply too_big_false. rewrite slice_length. lia.
Qed.

Lemma walk_outermost_both code max_chars :
  (Z.of_nat (length code) ≤ max_chars)%Z →
  (∀ node prev, walk code max_chars prev node [] = outermost code prev node) ∧
  (∀ cs prev,
     walk_children code max_chars prev cs [] =
       outermost_children code prev cs).
Proof.
  intros Hle. apply Node_children_ind.
  - intros t sb eb sp ep cs Hcs prev.
    rewrite walk_eq, outermost_eq, too_big_within_source by done.
    cbn [children]. destruct (bool_decide _); [done|apply Hcs].
  - done.
  - intros child cs Hchild Hcs prev.
    rewrite walk_children_cons_nil. cbn [outermost_children].
    by rewrite Hchild, Hcs.
Qed.

(** X5. With a budget of at least the length of the source nothing is ever
    split: the chunks of the walk are those of the outermost chunk units of
    the tree, one each and in order, and units nested in them never show.
    From that budget on the result no longer depends on [max_chars]. *)
Theorem large_budget_outermost code max_chars prev node :
  (Z.of_nat (length code) ≤ max_chars)%Z →
  walk code max_chars prev node [] = outermost code prev node.
Proof. intros Hle. by apply walk_outermost_both. Qed.

Lemma large_budget_outermost_witness :
  walk Fixtures.nested_src 91 None Samples.units_module [] =
    [ chunk_of Fixtures.nested_src None Samples.units_helper;
      chunk_of Fixtures.nested_src (Some Samples.units_helper)
        Samples.units_class ].
Proof.
  rewrite (large_budget_outermost Fixtures.nested_src 91 None
             Samples.units_module) by (vm_compute; discriminate).
  reflexivity.
Defined.

(** ** How many chunks *)

Lemma count_units_eq node :
  count_units node =
    (if bool_decide (type node ∈ CHUNK_NODES) then 1 else 0) +
    count_units_children (children node).
Proof. destruct node; reflexivity. Qed.

Lemma walk_count_both code max_chars :
  (∀ node prev,
     length (walk code max_chars prev node []) ≤ count_units node) ∧
  (∀ cs prev,
     length (walk_children code max_chars prev cs []) ≤
       count_units_children cs).
Proof.
  apply Node_children_ind.
  - intros t sb eb sp ep cs Hcs prev.
    rewrite walk_eq, count_units_eq. cbn [children].
    specialize (Hcs None).
    destruct (bool_decide _); [|done].
    destruct (too_big _ _ _ _); [lia|]. cbn. lia.
  - done.
  - intros child cs Hchild Hcs prev.
    rewrite walk_children_cons_nil, length_app. cbn [count_units_children].
    specialize (Hchild prev). specialize (Hcs (Some child)). lia.
Qed.

(** X6. The walk makes at most one chunk per chunk unit of the tree: the
    number of chunks is at most the number of nodes tagged as chunk units.
    A tree without such a node gives no chunk. *)
Theorem walk_at_most_one_per_unit code max_chars prev node :
  length (walk code max_chars prev node []) ≤ count_units node ∧
  (count_units node = 0 → walk code max_chars prev node [] = []).
Proof.
  destruct (walk_count_both code max_chars) as [H _].
  specialize (H node prev). split; [done|].
  intros H0. apply length_zero_iff_nil. lia.
Qed.

Lemma walk_at_most_one_per_unit_witness :
  walk Samples.flat_src 1500 None Samples.flat_module [] = [].
Proof.
  apply (walk_at_most_one_per_unit Samples.flat_src 1500 None
           Samples.flat_module).
  reflexivity.
Defined.

(** X7. A chunk unit that exceeds the budget and has no chunk unit below it
    is dropped as a whole, whatever children it has: the walk appends nothing
    for it. *)
Theorem oversized_unit_without_units_dropped code max_chars prev node chunks :
  type node ∈ CHUNK_NODES →
  too_big code max_chars prev node = true →
  count_units_children (children node) = 0 →
  walk code max_chars prev node chunks = chunks.
Proof.
  intros Hin Hbig H0. rewrite walk_unit, Hbig by done.
  rewrite walk_children_app.
  destruct (walk_count_both code max_chars) as [_ H].
  specialize (H (children node) None).
  assert (Hnil : walk_children code max_chars None (children node) [] = [])
    by (apply length_zero_iff_nil; lia).
  by rewrite Hnil, app_nil_r.
Qed.

(** The method of the second sample has 45 characters and five children,
    none of them a chunk unit: with a budget of 40 it leaves no chunk. *)
Lemma oversized_unit_without_units_dropped_witness :
  walk Fixtures.nested_src 40 None Samples.units_method [] = [].
Proof.
  apply (oversized_unit_without_units_dropped Fixtures.nested_src 40 None
           Samples.units_method []);
    [vm_compute; done | vm_compute; reflexivity | reflexivity].
Defined.

(** ** The comment in front, as text *)

(** X9. When the previous sibling is a comment that starts before the node,
    the chunk's text is the source from the start of the comment to the start
    of the node, followed by the node's own text: the comment and whatever
    separates it from the node are put in front and nothing of the node is
    lost.  The text with the comment is at least as long as the node's own,
    so a unit kept with its comment would also be kept without it. *)
Theorem comment_text_prepended code max_chars p node :
  type p = "comment" →
  start_byte p ≤ start_byte node →
  start_byte node ≤ end_byte node →
  chunk_text (chunk_of code (Some p) node) =
    slice code (start_byte p) (start_byte node) ++
    chunk_text (chunk_of code None node) ∧
  (too_big code max_chars (Some p) node = false →
   too_big code max_chars None node = false).
Proof.
  intros Hp Hle1 Hle2.
  assert (Heq : chunk_text (chunk_of code (Some p) node) =
                  slice code (start_byte p) (start_byte node) ++
                  chunk_text (chunk_of code None node)).
  { unfold chunk_of. cbn [chunk_text effective_start].
    rewrite bool_decide_eq_true_2 by done. by apply slice_split. }
  split; [done|].
  unfold too_big. rewrite Heq, length_app, !Z.gtb_ltb, !Z.ltb_ge. lia.
Qed.

Lemma comment_text_prepended_witness :
  chunk_text (chunk_of Samples.helper_src (Some Samples.helper_comment)
                Samples.helper_def) =
    of_string "# helper fn
" ++ of_string "def helper(x): return x".
Proof.
  apply (comment_text_prepended Samples.helper_src 1500
           Samples.helper_comment Samples.helper_def);
    [reflexivity | vm_compute; lia | vm_compute; lia].
Defined.

(** ** Line ranges *)

Lemma walk_ranges_both code max_chars :
  (∀ node prev,
     doc_ordered node = true →
     (∀ c, c ∈ walk code max_chars prev node [] →
           fst (start_point node) ≤ start_line c ∧
           start_line c ≤ end_line c ∧
           end_line c ≤ fst (end_point node)) ∧
     StronglySorted ends_before (walk code max_chars prev node [])) ∧
  (∀ cs hi lo prev,
     ordered_from hi lo cs = true →
     (∀ c, c ∈ walk_children code max_chars prev cs [] →
           fst lo ≤ start_line c ∧
           start_line c ≤ end_line c ∧
           end_line c ≤ fst hi) ∧
     StronglySorted ends_before (walk_children code max_chars prev cs [])).
Proof.
  apply Node_children_ind.
  - intros t sb eb sp ep cs Hcs prev Hord.
    set (node := mkNode t sb eb sp ep cs) in *.
    pose proof (doc_ordered_rows _ Hord) as Hrows.
    rewrite doc_ordered_eq in Hord. apply andb_true_iff in Hord as [_ Hord].
    rewrite (walk_by_kept _ _ _ _ []).
    destruct (kept _ _ _).
    + split; [|repeat constructor].
      intros c ->%list_elem_of_singleton.
      cbn [chunk_of start_line end_line]. lia.
    + by apply Hcs.
  - intros hi lo prev _. cbn. split; [by intros c ?%elem_of_nil|constructor].
  - intros child cs Hchild Hcs hi lo prev Hord. cbn [ordered_from] in Hord.
    apply andb_true_iff in Hord as [Hord Hrest].
    apply andb_true_iff in Hord as [Hord Hdoc].
    apply andb_true_iff in Hord as [Hlo Hhi].
    apply point_leb_row in Hlo, Hhi.
    pose proof (doc_ordered_rows _ Hdoc) as Hrows.
    destruct (Hchild prev Hdoc) as [Hb1 Hs1].
    destruct (Hcs hi (end_point child) (Some child) Hrest) as [Hb2 Hs2].
    rewrite walk_children_cons_nil. split.
    + intros c [Hc|Hc]%elem_of_app.
      * apply Hb1 in Hc. lia.
      * apply Hb2 in Hc. lia.
    + apply StronglySorted_app_2; [|done..].
      intros c1 c2 Hc1%Hb1 Hc2%Hb2. unfold ends_before. lia.
Qed.

(** X10. When the tree is in document order, the line ranges of the chunks
    of the walk are well formed and do not overlap: every chunk starts no
    later than it ends, lies within the rows of the root, and ends no later
    than the row on which any later chunk starts. *)
Theorem chunk_line_ranges code max_chars root :
  doc_ordered root = true →
  let chunks := walk code max_chars None root [] in
  (∀ c, c ∈ chunks →
        fst (start_point root) ≤ start_line c ∧
        start_line c ≤ end_line c ∧
        end_line c ≤ fst (end_point root)) ∧
  (∀ i j a b,
     i < j → chunks !! i = Some a → chunks !! j = Some b →
     end_line a ≤ start_line b).
Proof.
  intros Hord chunks.
  destruct (walk_ranges_both code max_chars) as [H _].
  destruct (H root None Hord) as [Hb Hs]. split; [done|].
  intros i j a b Hij Ha Hb'.
  by apply (StronglySorted_lookup ends_before chunks i j a b).
Qed.

(** With a budget of 50 the helper function, rows 1 to 2, comes before the
    method, rows 5 to 6. *)
Lemma chunk_line_ranges_witness :
  end_line (chunk_of Fixtures.nested_src None Samples.units_helper) ≤
    start_line (chunk_of Fixtures.nested_src None Samples.units_method).
Proof.
  pose proof (chunk_line_ranges Fixtures.nested_src 50 Samples.units_module
                eq_refl) as H.
  cbv zeta in H. destruct H as [_ H].
  apply (H 0 1); [lia | reflexivity | reflexivity].
Defined.

(** ** The line count of the whole-file chunk *)

Lemma splitlines_from_bounds :
  ∀ n s cur,
    length s ≤ n →
    length (splitlines_from cur s) ≤ length s + (if truthy cur then 1 else 0) ∧
    (truthy cur = true ∨ s ≠ [] → 1 ≤ length (splitlines_from cur s)).
Proof.
  induction n as [|n IH]; intros s cur Hn.
  - destruct s; [|cbn in Hn; lia]. destruct cur; cbn; split; try lia.
    + intros [?|?]; done.
  - destruct s as [|c s]; [destruct cur; cbn; split; try lia;
                             intros [?|?]; done|].
    cbn [splitlines_from]. cbn [length] in Hn.
    destruct (is_linebreak c).
    + cbn [length]. split; [|lia].
      destruct s as [|c' s'].
      * cbn. destruct (truthy cur); lia.
      * cbn [length] in *.
        destruct ((c =? 13)%N && (c' =? 10)%N).
        -- destruct (IH s' [] ltac:(lia)) as [H _]. cbn [truthy] in H.
           destruct (truthy cur); lia.
        -- destruct (IH (c' :: s') [] ltac:(cbn; lia)) as [H _].
           cbn [truthy length] in H. destruct (truthy cur); lia.
    + destruct (IH s (c :: cur) ltac:(lia)) as [H1 H2].
      cbn [truthy] in H1, H2. cbn [length]. split.
      * destruct (truthy cur); lia.
      * intros _. apply H2. by left.
Qed.

(** X11. The whole-file chunk starts at line 0 and its [end_line] is a count
    of lines, not the row of the last line: for a non-empty source it is at
    least 1 and at most the number of characters of the source. *)
Theorem file_chunk_lines code :
  code ≠ [] →
  start_line (file_chunk code) = 0 ∧
  1 ≤ end_line (file_chunk code) ∧
  end_line (file_chunk code) ≤ length code.
Proof.
  intros Hne. cbn [file_chunk start_line end_line]. unfold splitlines.
  destruct (splitlines_from_bounds (length code) code [] (le_n _)) as [H1 H2].
  cbn [truthy] in H1. split; [done|]. split; [|lia]. apply H2. by right.
Qed.

(** A single line without a line feed: the chunk runs from 0 to 1. *)
Lemma file_chunk_lines_witness :
  start_line (file_chunk (of_string "x = 1")) = 0 ∧
  1 ≤ end_line (file_chunk (of_string "x = 1")) ∧
  end_line (file_chunk (of_string "x = 1")) ≤ 5.
Proof. apply (file_chunk_lines (of_string "x = 1")). discriminate. Defined.

(** ** Raising the budget *)

Lemma kept_mono code max1 max2 c :
  (max1 ≤ max2)%Z → kept code max1 c = true → kept code max2 c = true.
Proof.
  intros Hle. unfold kept, too_big.
  rewrite !andb_true_iff, !negb_true_iff, !Z.gtb_ltb, !Z.ltb_ge.
  intros [? ?]. split; [done|lia].
Qed.

Lemma calls_head code max_chars pos prev node :
  mkCall pos prev node ∈ calls code max_chars pos prev node.
Proof. rewrite calls_eq. apply list_elem_of_here. Qed.

Lemma budget_mono_both code max1 max2 :
  (max1 ≤ max2)%Z →
  (∀ node pos prev c,
     c ∈ calls code max1 pos prev node →
     kept code max1 c = true →
     ∃ c', c' ∈ calls code max2 pos prev node ∧
           kept code max2 c' = true ∧
           call_pos c' `prefix_of` call_pos c) ∧
  (∀ cs pos i prev c,
     c ∈ calls_children code max1 pos i prev cs →
     kept code max1 c = true →
     ∃ c', c' ∈ calls_children code max2 pos i prev cs ∧
           kept code max2 c' = true ∧
           call_pos c' `prefix_of` call_pos c).
Proof.
  intros Hle. apply Node_children_ind.
  - intros t sb eb sp ep cs Hcs pos prev c Hc Hk.
    set (node := mkNode t sb eb sp ep cs) in *.
    destruct (kept code max2 (mkCall pos prev node)) eqn:Hk2.
    + exists (mkCall pos prev node).
      split; [apply calls_head|]. split; [done|].
      apply calls_node_at in Hc as (r & -> & _). by apply prefix_app_r.
    + destruct (kept code max1 (mkCall pos prev node)) eqn:Hk1.
      { apply (kept_mono _ _ max2) in Hk1; [congruence|done]. }
      rewrite calls_not_kept in Hc by done.
      apply elem_of_cons in Hc as [->|Hc]; [congruence|].
      destruct (Hcs _ _ _ _ Hc Hk) as (c' & Hc' & Hk' & Hpre).
      exists c'. split; [|done].
      rewrite calls_not_kept by done. by apply list_elem_of_further.
  - intros pos i prev c. cbn. by intros ?%elem_of_nil.
  - intros child cs Hchild Hcs pos i prev c. cbn [calls_children].
    intros [Hc|Hc]%elem_of_app Hk.
    + destruct (Hchild _ _ _ Hc Hk) as (c' & Hc' & Hk' & Hpre).
      exists c'. split; [|done]. apply elem_of_app. by left.
    + destruct (Hcs _ _ _ _ Hc Hk) as (c' & Hc' & Hk' & Hpre).
      exists c'. split; [|done]. apply elem_of_app. by right.
Qed.

(** X12. Raising the budget never loses content.  If a node is kept as a
    chunk under a budget, then under any larger budget the walk keeps that
    node or one of its ancestors: what was inside a chunk stays inside a
    chunk. *)
Theorem budget_never_loses code max1 max2 root c :
  (max1 ≤ max2)%Z →
  c ∈ calls code max1 [] None root →
  kept code max1 c = true →
  ∃ c', c' ∈ calls code max2 [] None root ∧
        kept code max2 c' = true ∧
        call_pos c' `prefix_of` call_pos c.
Proof.
  intros Hle. destruct (budget_mono_both code max1 max2 Hle) as [H _].
  apply H.
Qed.

(** The method kept under a budget of 50 lies in the class kept under a
    budget of 1000. *)
Lemma budget_never_loses_witness :
  ∃ c', c' ∈ calls Fixtures.nested_src 1000 [] None Samples.units_module ∧
        kept Fixtures.nested_src 1000 c' = true ∧
        call_pos c' `prefix_of` [1; 3; 0].
Proof.
  apply (budget_never_loses Fixtures.nested_src 50 1000 Samples.units_module
           (mkCall [1; 3; 0] None Samples.units_method)).
  - lia.
  - vm_compute. do 7 apply list_elem_of_further. apply list_elem_of_here.
  - vm_compute. reflexivity.
Defined.

(** ** Nothing is skipped *)

Lemma calls_children_lookup code max_chars pos cs :
  ∀ i j prev child,
    cs !! i = Some child →
    ∃ prev', ∀ c,
      c ∈ calls code max_chars (pos ++ [j + i]) prev' child →
      c ∈ calls_children code max_chars pos j prev cs.
Proof.
  induction cs as [|c0 cs IH]; intros i j prev child Hi; [done|].
  destruct i as [|i]; cbn in Hi.
  - injection Hi as ->. exists prev. intros c Hc.
    cbn [calls_children]. apply elem_of_app. left.
    by rewrite Nat.add_0_r in Hc.
  - destruct (IH i (S j) (Some c0) child Hi) as (prev' & H).
    exists prev'. intros c Hc. cbn [calls_children].
    apply elem_of_app. right. apply H.
    by replace (S j + i) with (j + S i) by lia.
Qed.

Lemma walk_covers_from code max_chars r :
  ∀ node pos prev n,
    node_at node r = Some n →
    (∃ c, c ∈ calls code max_chars pos prev node ∧
          call_pos c = pos ++ r ∧ call_node c = n) ∨
    (∃ c, c ∈ calls code max_chars pos prev node ∧
          kept code max_chars c = true ∧
          call_pos c `prefix_of` pos ++ r ∧ call_pos c ≠ pos ++ r).
Proof.
  induction r as [|i r IH]; intros node pos prev n Hat.
  - injection Hat as <-. left. exists (mkCall pos prev node).
    split; [apply calls_head|]. by rewrite app_nil_r.
  - cbn in Hat. destruct (children node !! i) as [child|] eqn:Hi; [|done].
    destruct (kept code max_chars (mkCall pos prev node)) eqn:Hk.
    + right. exists (mkCall pos prev node).
      split; [apply calls_head|]. split; [done|]. cbn [call_pos].
      split; [by apply prefix_app_r|].
      intros H%(f_equal length). rewrite length_app in H. cbn in H. lia.
    + destruct (calls_children_lookup code max_chars pos (children node)
                  i 0 None child Hi) as (prev' & Hsub).
      assert (Hin : ∀ c,
                c ∈ calls code max_chars (pos ++ [i]) prev' child →
                c ∈ calls code max_chars pos prev node).
      { intros c Hc. rewrite calls_not_kept by done.
        apply list_elem_of_further. by apply Hsub. }
      destruct (IH child (pos ++ [i]) prev' n Hat)
        as [(c & Hc & Hpos & Hn)|(c & Hc & Hkc & Hpre & Hne)].
      * left. exists c. rewrite <- app_assoc in Hpos. auto.
      * right. exists c. rewrite <- app_assoc in Hpre, Hne. auto.
Qed.

(** X13. The walk skips nothing.  Every node of the tree is either the
    subject of a call of [walk], or lies strictly below a node that was kept
    as a chunk. *)
Theorem walk_covers code max_chars root pos n :
  node_at root pos = Some n →
  (∃ c, c ∈ calls code max_chars [] None root ∧
        call_pos c = pos ∧ call_node c = n) ∨
  (∃ c, c ∈ calls code max_chars [] None root ∧
        kept code max_chars c = true ∧
        call_pos c `prefix_of` pos ∧ call_pos c ≠ pos).
Proof. apply (walk_covers_from code max_chars pos root [] None n). Qed.

(** Under a budget of 1000 the method is not called: it lies below a kept
    call, the one of its class. *)
Lemma walk_covers_witness :
  ∃ c, c ∈ calls Fixtures.nested_src 1000 [] None Samples.units_module ∧
       kept Fixtures.nested_src 1000 c = true ∧
       call_pos c `prefix_of` [1; 3; 0] ∧ call_pos c ≠ [1; 3; 0].
Proof.
  destruct (walk_covers Fixtures.nested_src 1000 Samples.units_module
              [1; 3; 0] Samples.units_method eq_refl)
    as [(c & Hc & Hpos & _)|H]; [|exact H].
  exfalso. vm_compute in Hc.
  repeat (apply elem_of_cons in Hc as [->|Hc]; [discriminate Hpos|]).
  by apply elem_of_nil in Hc.
Defined.

(** ** Byte offsets used as character indices *)

Lemma utf8_len_pos c : 1 ≤ utf8_len c.
Proof. unfold utf8_len. repeat case_match; lia. Qed.

Lemma utf8_len_ascii c : (c < 128)%N → utf8_len c = 1.
Proof.
  intros H. unfold utf8_len. by apply N.ltb_lt in H as ->.
Qed.

Lemma utf8_len_other c : (128 ≤ c)%N → 2 ≤ utf8_len c.
Proof.
  intros H. unfold utf8_len. apply N.ltb_ge in H as ->.
  repeat case_match; lia.
Qed.

Lemma byte_offset_cons c code k :
  byte_offset (c :: code) (S k) = utf8_len c + byte_offset code k.
Proof. reflexivity. Qed.

Lemma byte_offset_ge code :
  ∀ k, k ≤ length code → k ≤ byte_offset code k.
Proof.
  induction code as [|c code IH]; intros [|k] Hk; cbn in Hk; try lia.
  rewrite byte_offset_cons.
  pose proof (utf8_len_pos c). specialize (IH k). lia.
Qed.

Lemma byte_offset_ascii code :
  ∀ k, k ≤ length code →
       Forall (λ c, (c < 128)%N) (take k code) →
       byte_offset code k = k.
Proof.
  induction code as [|c code IH]; intros [|k] Hk Hall; cbn in Hk; try done.
  - lia.
  - cbn [take] in Hall. apply Forall_cons in Hall as [Hc Hall].
    rewrite byte_offset_cons, utf8_len_ascii, IH by (done || lia). done.
Qed.

Lemma byte_offset_gt code :
  ∀ k, k ≤ length code →
       Exists (λ c, (128 ≤ c)%N) (take k code) →
       k < byte_offset code k.
Proof.
  induction code as [|c code IH]; intros [|k] Hk Hex; cbn in Hk;
    try (by apply Exists_nil in Hex); try lia.
  cbn [take] in Hex. rewrite byte_offset_cons.
  apply Exists_cons in Hex as [Hc|Hex].
  - pose proof (utf8_len_other c Hc).
    pose proof (byte_offset_ge code k ltac:(lia)). lia.
  - pose proof (utf8_len_pos c). specialize (IH k ltac:(lia) Hex). lia.
Qed.

(** X14. The offsets of the tree count bytes of the UTF-8 encoding, and the
    walk uses them as character indices.  For a node covering the characters
    [i] to [j] of a source that is ASCII up to [j], the two agree and the
    chunk's text is exactly those characters. *)
Theorem ascii_chunk_text code prev node i j :
  effective_start prev node = byte_offset code i →
  end_byte node = byte_offset code j →
  i ≤ j → j ≤ length code →
  Forall (λ c, (c < 128)%N) (take j code) →
  chunk_text (chunk_of code prev node) = slice code i j.
Proof.
  intros Hs He Hij Hj Hall. unfold chunk_of. cbn [chunk_text].
  rewrite Hs, He.
  rewrite (byte_offset_ascii code j) by done.
  rewrite (byte_offset_ascii code i); [done|lia|].
  replace i with (i `min` j) by lia. rewrite <- take_take.
  by apply Forall_take.
Qed.

Lemma ascii_chunk_text_witness :
  chunk_text (chunk_of Fixtures.nested_src None Samples.units_helper) =
    slice Fixtures.nested_src 1 30.
Proof.
  apply (ascii_chunk_text Fixtures.nested_src None Samples.units_helper 1 30);
    [reflexivity | reflexivity | lia | vm_compute; lia |].
  vm_compute. repeat constructor.
Defined.

(** X15. After a character outside ASCII the byte offsets run ahead of the
    character indices.  For a node covering the characters [i] to [j], with
    such a character before [i], the chunk's text starts later than the
    node: at the character of index [byte_offset code i], which is greater
    than [i].  When that index is past the end of the source the chunk has
    an empty text. *)
Theorem byte_offsets_run_ahead code prev node i j :
  effective_start prev node = byte_offset code i →
  end_byte node = byte_offset code j →
  i ≤ length code →
  Exists (λ c, (128 ≤ c)%N) (take i code) →
  chunk_text (chunk_of code prev node) =
    slice code (byte_offset code i) (byte_offset code j) ∧
  i < byte_offset code i ∧
  (length code ≤ byte_offset code i →
   chunk_text (chunk_of code prev node) = []).
Proof.
  intros Hs He Hi Hex. unfold chunk_of. cbn [chunk_text].
  rewrite Hs, He. split; [done|]. split; [by apply byte_offset_gt|].
  intros Hlen. apply length_zero_iff_nil. rewrite slice_length. lia.
Qed.

(** The function after the accented character loses its first character. *)
Lemma byte_offsets_run_ahead_witness :
  slice Fixtures.accent_src 6 19 = of_string "def f(): pass" ∧
  chunk_text (chunk_of Fixtures.accent_src None Fixtures.accent_def) =
    of_string "ef f(): pass
".
Proof.
  split; [reflexivity|].
  destruct (byte_offsets_run_ahead Fixtures.accent_src None
              Fixtures.accent_def 6 19) as (H & _ & _);
    [reflexivity | reflexivity | vm_compute; lia | |].
  - apply Exists_cons. left. vm_compute. discriminate.
  - rewrite H. reflexivity.
Defined.

(** ** The walk under the recursion limit *)

Lemma walk_limited_0 code max_chars prev node chunks :
  walk_limited code max_chars 0 prev node chunks = Raise "RecursionError".
Proof. by destruct node. Qed.

Lemma walk_limited_S code max_chars frames prev node chunks :
  walk_limited code max_chars (S frames) prev node chunks =
    if bool_decide (type node ∈ CHUNK_NODES) then
      if too_big code max_chars prev node
      then walk_limited_children code max_chars frames None
             (children node) chunks
      else Ok (chunks ++ [chunk_of code prev node])
    else walk_limited_children code max_chars frames None
           (children node) chunks.
Proof. destruct node; destruct prev; reflexivity. Qed.

Lemma walk_frames_eq code max_chars prev node :
  walk_frames code max_chars prev node =
    S (if bool_decide (type node ∈ CHUNK_NODES) then
         if too_big code max_chars prev node
         then walk_frames_children code max_chars None (children node)
         else 0
       else walk_frames_children code max_chars None (children node)).
Proof. destruct node; reflexivity. Qed.

Lemma height_eq node : height node = S (height_children (children node)).
Proof. destruct node; reflexivity. Qed.

(** The limited walk returns what the walk returns when the calls it needs
    are allowed, and raises otherwise. *)
Lemma walk_limited_both code max_chars :
  (∀ node frames prev chunks,
     walk_limited code max_chars frames prev node chunks =
       if walk_frames code max_chars prev node <=? frames
       then Ok (walk code max_chars prev node chunks)
       else Raise "RecursionError") ∧
  (∀ cs frames prev chunks,
     walk_limited_children code max_chars frames prev cs chunks =
       if walk_frames_children code max_chars prev cs <=? frames
       then Ok (walk_children code max_chars prev cs chunks)
       else Raise "RecursionError").
Proof.
  apply Node_children_ind.
  - intros t sb eb sp ep cs Hcs frames prev chunks.
    set (node := mkNode t sb eb sp ep cs).
    rewrite walk_frames_eq, walk_eq. destruct frames as [|frames].
    + by rewrite walk_limited_0.
    + rewrite walk_limited_S. cbn [children]. fold node.
      change (S ?a <=? S ?b) with (a <=? b).
      destruct (bool_decide _); [|apply Hcs].
      destruct (too_big _ _ _ _); [apply Hcs|done].
  - done.
  - intros child cs Hchild Hcs frames prev chunks.
    cbn [walk_limited_children walk_frames_children walk_children].
    rewrite Hchild.
    destruct (Nat.leb_spec (walk_frames code max_chars prev child) frames)
      as [H1|H1].
    + rewrite Hcs.
      destruct (Nat.leb_spec
                  (walk_frames_children code max_chars (Some child) cs)
                  frames) as [H2|H2].
      * by rewrite (proj2 (Nat.leb_le _ _)) by lia.
      * by rewrite (proj2 (Nat.leb_gt _ _)) by lia.
    + by rewrite (proj2 (Nat.leb_gt _ _)) by lia.
Qed.

Lemma walk_limited_spec code max_chars frames prev node chunks :
  walk_limited code max_chars frames prev node chunks =
    if walk_frames code max_chars prev node <=? frames
    then Ok (walk code max_chars prev node chunks)
    else Raise "RecursionError".
Proof. apply walk_limited_both. Qed.

Lemma walk_frames_height_both code max_chars :
  (∀ node prev, walk_frames code max_chars prev node ≤ height node) ∧
  (∀ cs prev,
     walk_frames_children code max_chars prev cs ≤ height_children cs).
Proof.
  apply Node_children_ind.
  - intros t sb eb sp ep cs Hcs prev.
    rewrite walk_frames_eq, height_eq. cbn [children].
    specialize (Hcs None). repeat case_match; lia.
  - done.
  - intros child cs Hchild Hcs prev.
    cbn [walk_frames_children height_children].
    specialize (Hchild prev). specialize (Hcs (Some child)). lia.
Qed.

Lemma walk_frames_negative_both code max_chars :
  (max_chars < 0)%Z →
  (∀ node prev, walk_frames code max_chars prev node = height node) ∧
  (∀ cs prev,
     walk_frames_children code max_chars prev cs = height_children cs).
Proof.
  intros Hneg. apply Node_children_ind.
  - intros t sb eb sp ep cs Hcs prev.
    rewrite walk_frames_eq, height_eq. cbn [children].
    assert (Hbig : too_big code max_chars prev (mkNode t sb eb sp ep cs) = true)
      by (apply too_big_true; lia).
    rewrite Hbig, Hcs. by destruct (bool_decide _).
  - done.
  - intros child cs Hchild Hcs prev.
    cbn [walk_frames_children height_children]. by rewrite Hchild, Hcs.
Qed.

(** [_parse] once the language and the tree are there. *)
Lemma _parse_eq {Language} (self : Env Language) code lang_id max_chars
    language root_node :
  get_language self lang_id = Ok language →
  parse self language code = Ok root_node →
  _parse self code lang_id max_chars =
    if walk_frames code max_chars None root_node <=? frames self
    then Ok (parse_root code max_chars root_node)
    else Raise "RecursionError".
Proof.
  intros Hlang Hparse. unfold _parse. rewrite Hlang. cbn.
  rewrite Hparse. cbn. rewrite walk_limited_spec.
  by destruct (_ <=? _).
Qed.

(** X1. Whenever [_parse] returns, its result is empty exactly when the walk
    appended no chunk and the source is empty or all whitespace: for a source
    with any other character [_parse] returns at least one chunk or
    raises. *)
Theorem parse_empty_iff {Language} (self : Env Language) code lang_id
    max_chars language root_node chunks :
  get_language self lang_id = Ok language →
  parse self language code = Ok root_node →
  _parse self code lang_id max_chars = Ok chunks →
  (chunks = [] ↔
   walk code max_chars None root_node [] = [] ∧
   Forall (λ c, is_space c = true) code).
Proof.
  intros Hlang Hparse. rewrite (_parse_eq _ _ _ _ _ _ Hlang Hparse).
  destruct (_ <=? _); [|done]. intros [= <-].
  apply parse_root_empty_iff.
Qed.

Lemma parse_empty_iff_witness :
  _parse Samples.flat_env Samples.flat_src "python" 1500 =
    Ok [file_chunk Samples.flat_src] ∧
  ([file_chunk Samples.flat_src] = [] ↔
   walk Samples.flat_src 1500 None Samples.flat_module [] = [] ∧
   Forall (λ c, is_space c = true) Samples.flat_src).
Proof.
  split; [reflexivity|].
  by apply (parse_empty_iff Samples.flat_env Samples.flat_src "python" 1500
              () Samples.flat_module).
Defined.

(** X4. With a negative budget no chunk unit is kept and the walk goes down
    to every node of the tree.  When the tree has no more levels than the
    recursion limit leaves calls, [_parse] gives the one whole-file chunk for
    a non-blank source and the empty list for a blank one; on a deeper tree
    it raises [RecursionError]. *)
Theorem negative_budget {Language} (self : Env Language) code lang_id
    max_chars language root_node :
  (max_chars < 0)%Z →
  get_language self lang_id = Ok language →
  parse self language code = Ok root_node →
  _parse self code lang_id max_chars =
    if height root_node <=? frames self
    then Ok (if truthy (strip code) then [file_chunk code] else [])
    else Raise "RecursionError".
Proof.
  intros Hneg Hlang Hparse. rewrite (_parse_eq _ _ _ _ _ _ Hlang Hparse).
  destruct (walk_frames_negative_both code max_chars Hneg) as [-> _].
  destruct (_ <=? _); [|done].
  by destruct (walk_negative_budget code max_chars root_node Hneg) as [_ ->].
Qed.

Lemma negative_budget_witness :
  _parse Samples.flat_env Samples.flat_src "python" (-1) =
    Ok [file_chunk Samples.flat_src] ∧
  _parse Fixtures.shallow_stack_env Samples.flat_src "python" (-1) =
    Raise "RecursionError".
Proof.
  split.
  - rewrite (negative_budget Samples.flat_env Samples.flat_src "python" (-1)
               () Samples.flat_module); reflexivity.
  - rewrite (negative_budget Fixtures.shallow_stack_env Samples.flat_src
               "python" (-1) () (Fixtures.nest 5)); reflexivity.
Defined.

(** ** The entry point *)

(** X8. When tree-sitter is there, the extension is known, the file is read
    and parsed, and the recursion limit leaves the calls the walk needs,
    [chunk_file] returns the chunks of [_parse] for the text read and the tree
    parsed.  Conversely a non-empty result is always of that kind: it is
    never produced when tree-sitter is missing, the extension is unknown, or
    a step failed. *)
Theorem chunk_file_ok {Language} (self : Env Language) file_path max_chars :
  (∀ lang_id code language root_node,
     _available self = true →
     LANG_MAP !! Pathlib.lower (Pathlib.suffix file_path) = Some lang_id →
     read_text self file_path = Ok code →
     get_language self lang_id = Ok language →
     parse self language code = Ok root_node →
     walk_frames code max_chars None root_node ≤ frames self →
     chunk_file self file_path max_chars =
       Ok (parse_root code max_chars root_node)) ∧
  (∀ chunks,
     chunk_file self file_path max_chars = Ok chunks →
     chunks ≠ [] →
     ∃ lang_id code language root_node,
       _available self = true ∧
       LANG_MAP !! Pathlib.lower (Pathlib.suffix file_path) = Some lang_id ∧
       read_text self file_path = Ok code ∧
       get_language self lang_id = Ok language ∧
       parse self language code = Ok root_node ∧
       walk_frames code max_chars None root_node ≤ frames self ∧
       chunks = parse_root code max_chars root_node).
Proof.
  unfold chunk_file. split.
  - intros lang_id code language root_node -> -> Hread Hlang Hparse Hfr.
    cbn. rewrite Hread. cbn.
    rewrite (_parse_eq _ _ _ _ _ _ Hlang Hparse).
    by rewrite (proj2 (Nat.leb_le _ _)) by done.
  - intros chunks.
    destruct (_available self) eqn:Hav; cbn [negb]; [|by intros [= <-]].
    destruct (LANG_MAP !! _) as [lang_id|] eqn:Hext; [|by intros [= <-]].
    assert (Hhandler : ∀ e (cs : list Chunk),
              (print self ("Error parsing " +:+ file_path +:+ ": " +:+ e)
               ≫= λ _, mret []) = Ok cs → cs = []).
    { intros e cs. destruct (print self _); cbn; [by intros [= <-]|done]. }
    destruct (read_text self file_path) as [code|e] eqn:Hread; cbn;
      [|by intros ->%Hhandler].
    destruct (get_language self lang_id) as [language|e] eqn:Hlang.
    2: { unfold _parse. rewrite Hlang. cbn. by intros ->%Hhandler. }
    destruct (parse self language code) as [root_node|e] eqn:Hparse.
    2: { unfold _parse. rewrite Hlang. cbn. rewrite Hparse. cbn.
         by intros ->%Hhandler. }
    rewrite (_parse_eq _ _ _ _ _ _ Hlang Hparse).
    destruct (Nat.leb_spec (walk_frames code max_chars None root_node)
                (frames self)) as [Hfr|Hfr]; cbn;
      [|by intros ->%Hhandler].
    intros [= <-] _. exists lang_id, code, language, root_node.
    repeat split; done.
Qed.

Lemma chunk_file_ok_witness :
  chunk_file Samples.flat_env "src/App/Main.PY" default_max_chars =
    Ok [file_chunk Samples.flat_src].
Proof.
  destruct (chunk_file_ok Samples.flat_env "src/App/Main.PY"
              default_max_chars) as [H _].
  rewrite (H "python" Samples.flat_src () Samples.flat_module);
    try reflexivity.
  vm_compute. lia.
Defined.



(** X17. A tree that needs more nested calls than the recursion limit leaves
    makes [_parse] raise [RecursionError], which [chunk_file] catches: once
    the message is printed the result is the empty list, without the
    whole-file chunk.  A tree with no more levels than calls left is always
    walked to the end, and [chunk_file] returns the chunks of [_parse]. *)
Theorem deep_tree_no_chunks {Language} (self : Env Language) file_path
    max_chars lang_id code language root_node :
  _available self = true →
  LANG_MAP !! Pathlib.lower (Pathlib.suffix file_path) = Some lang_id →
  read_text self file_path = Ok code →
  get_language self lang_id = Ok language →
  parse self language code = Ok root_node →
  (frames self < walk_frames code max_chars None root_node →
   _parse self code lang_id max_chars = Raise "RecursionError" ∧
   (print self
      ("Error parsing " +:+ file_path +:+ ": " +:+ "RecursionError") =
      Ok () →
    chunk_file self file_path max_chars = Ok [])) ∧
  (height root_node ≤ frames self →
   chunk_file self file_path max_chars =
     Ok (parse_root code max_chars root_node)).
Proof.
  intros Hav Hext Hread Hlang Hparse.
  pose proof (_parse_eq self code lang_id max_chars _ _ Hlang Hparse) as Hp.
  assert (Hcf : chunk_file self file_path max_chars =
                  try_except (_parse self code lang_id max_chars)
                    (λ e,
                       _ ← print self
                             ("Error parsing " +:+ file_path +:+ ": " +:+ e);
                       mret [])).
  { unfold chunk_file. by rewrite Hav, Hext, Hread. }
  rewrite Hcf. split.
  - intros Hfr. rewrite (proj2 (Nat.leb_gt _ _)) in Hp by done.
    split; [done|]. intros Hprint. rewrite Hp. unfold try_except.
    by rewrite Hprint.
  - intros Hh.
    destruct (walk_frames_height_both code max_chars) as [Hle _].
    specialize (Hle root_node None).
    rewrite (proj2 (Nat.leb_le _ _)) in Hp by lia. by rewrite Hp.
Qed.

(** Six nested blocks and room for three calls: no chunk, although the
    source is not blank; with room for 900 the flat script gives the
    whole-file chunk. *)
Lemma deep_tree_no_chunks_witness :
  chunk_file Fixtures.shallow_stack_env "deep.py" default_max_chars = Ok [] ∧
  chunk_file Samples.flat_env "flat.py" default_max_chars =
    Ok [file_chunk Samples.flat_src].
Proof.
  split.
  - destruct (deep_tree_no_chunks Fixtures.shallow_stack_env "deep.py"
                default_max_chars "python" Samples.flat_src ()
                (Fixtures.nest 5) eq_refl eq_refl eq_refl eq_refl eq_refl)
      as [H _].
    apply H; [vm_compute; lia | reflexivity].
  - destruct (deep_tree_no_chunks Samples.flat_env "flat.py"
                default_max_chars "python" Samples.flat_src ()
                Samples.flat_module eq_refl eq_refl eq_refl eq_refl eq_refl)
      as [_ H].
    rewrite H; [reflexivity | vm_compute; lia].
Defined.
